(** * vibe-maps: route segmentation, Haversine distance and waypoint selection

    A shallow embedding of the pure core of the trip planner:

    - [calculateDistance] and [segmentRoute] of the Mapbox service module, and
    - the route-POI validation of [handleSubmit] together with the waypoint cap
      of [getDirections];
    - the coordinate string of [getDirections], the place mapping of
      [findMapboxPOIs], [findSegmentPOIs] and [findDestinationPOIs], with the
      network answers as parameters;
    - the category preferences: the prompt's category sentence, the keyword
      filter of [getGeminiRoutePlacesRecommendations] and the page's loading
      message;
    - the event handlers of the location autocomplete component.

    JavaScript numbers are IEEE 754 binary64 values; they are modelled by
    Rocq's primitive [float], whose [+ - * /], [sqrt] and comparisons are the
    IEEE operations in round-to-nearest-even.  [Math.sin], [Math.cos] and
    [Math.atan2] are implementation-approximated in ECMAScript, so the
    embedding takes them as a parameter ([MathObject]); [Math.sqrt] is the
    correctly rounded IEEE square root.  Array indices and lengths are
    integers and are modelled by [nat] and [Z]. *)

From Stdlib Require Import String Ascii ZArith List Bool Lia Floats.
Import ListNotations.

#[local] Set Warnings "-inexact-float".

(** ** Abrupt completion

    Reading an element of [undefined] (for instance destructuring
    [coordinates[i]] when [i] is out of range) throws a [TypeError]. *)

Inductive JSError := TypeError.

Inductive Completion (A : Type) : Type :=
| Normal (a : A)
| Throw (e : JSError).

Arguments Normal {A} a.
Arguments Throw {A} e.

Definition bind {A B} (c : Completion A) (k : A -> Completion B) : Completion B :=
  match c with
  | Normal a => k a
  | Throw e => Throw e
  end.

Notation "x <- c ;; k" := (bind c (fun x => k))
  (at level 61, c at next level, right associativity).

(** [for (let i = ...; ...; i++) body], over the index values the loop visits. *)
Fixpoint for_each {S} (body : nat -> S -> Completion S) (indices : list nat) (st : S)
  : Completion S :=
  match indices with
  | [] => Normal st
  | i :: rest => st' <- body i st ;; for_each body rest st'
  end.

(** [array[i]] for an integer index: [undefined] when [i] is out of range.
    For an index known to be a natural number this is [nth_error]. *)
Definition array_get {A} (l : list A) (i : Z) : option A :=
  if (i <? 0)%Z then None else nth_error l (Z.to_nat i).

(** [Array.prototype.slice(start, end)] for non-negative integer arguments. *)
Definition slice {A} (l : list A) (start stop : nat) : list A :=
  firstn (stop - start) (skipn start l).

(** ** Numbers *)

Definition number := float.
Bind Scope float_scope with number.

(** [a >= b] on numbers: false as soon as one side is NaN. *)
Definition geb (a b : number) : bool := (b <=? a)%float.

(** [a !== b] on numbers: true when one side is NaN, false for [0] and [-0]. *)
Definition strict_neq (a b : number) : bool := negb (a =? b)%float.

(** ** The [Math] object *)

Record MathObject := {
  Math_sin : number -> number;
  Math_cos : number -> number;
  Math_atan2 : number -> number -> number
}.

Definition Math_PI : number := 0x1.921fb54442d18p+1%float.
Definition Math_sqrt : number -> number := PrimFloat.sqrt.

(** ** Data model *)

(** [[number, number]]: longitude, latitude. *)
Definition Coord := (number * number)%type.

Module Geometry.
Record t := { coordinates : option (list Coord) }.
End Geometry.

Module DirectionsResult.
Record t := {
  distance : number;
  duration : number;
  geometry : option Geometry.t
}.
End DirectionsResult.

Module RouteSegment.
Record t := {
  startIndex : Z;
  endIndex : Z;
  startCoordinate : option Coord;
  endCoordinate : option Coord;
  distance : number;
  duration : number;
  coordinates : list Coord
}.
End RouteSegment.

Section Mapbox.

Variable Math : MathObject.

Local Open Scope float_scope.

(** ** [calculateDistance]: the Haversine formula *)

Definition haversine (lon1 lat1 lon2 lat2 : number) : number :=
  let R := 6371e3 in
  let phi1 := lat1 * Math_PI / 180 in
  let phi2 := lat2 * Math_PI / 180 in
  let dphi := (lat2 - lat1) * Math_PI / 180 in
  let dlambda := (lon2 - lon1) * Math_PI / 180 in
  let a := Math_sin Math (dphi / 2) * Math_sin Math (dphi / 2) +
           Math_cos Math phi1 * Math_cos Math phi2 *
           Math_sin Math (dlambda / 2) * Math_sin Math (dlambda / 2) in
  let c := 2 * Math_atan2 Math (Math_sqrt a) (Math_sqrt (1 - a)) in
  R * c.

(** [const [lon, lat] = coord] *)
Definition destructure (coord : option Coord) : Completion Coord :=
  match coord with
  | Some p => Normal p
  | None => Throw TypeError
  end.

Definition calculateDistance (coord1 coord2 : option Coord) : Completion number :=
  p1 <- destructure coord1 ;;
  p2 <- destructure coord2 ;;
  Normal (haversine (fst p1) (snd p1) (fst p2) (snd p2)).

(** ** [segmentRoute] *)

Record LoopState := {
  segments : list RouteSegment.t;
  currentSegmentStart : nat;
  accumulatedDuration : number;
  accumulatedDistance : number
}.

Definition loop_body (coordinates : list Coord)
    (distanceTimeRatio targetDurationSeconds : number)
    (i : nat) (st : LoopState) : Completion LoopState :=
  segmentDistance <-
    calculateDistance (nth_error coordinates (i - 1)) (nth_error coordinates i) ;;
  let estimatedDuration := segmentDistance / distanceTimeRatio in
  let accumulatedDuration' := accumulatedDuration st + estimatedDuration in
  let accumulatedDistance' := accumulatedDistance st + segmentDistance in
  if geb accumulatedDuration' targetDurationSeconds
     || (Z.of_nat i =? Z.of_nat (length coordinates) - 1)%Z
  then
    Normal {|
      segments := segments st ++ [ {|
        RouteSegment.startIndex := Z.of_nat (currentSegmentStart st);
        RouteSegment.endIndex := Z.of_nat i;
        RouteSegment.startCoordinate := nth_error coordinates (currentSegmentStart st);
        RouteSegment.endCoordinate := nth_error coordinates i;
        RouteSegment.distance := accumulatedDistance';
        RouteSegment.duration := accumulatedDuration';
        RouteSegment.coordinates := slice coordinates (currentSegmentStart st) (i + 1)
      |} ];
      currentSegmentStart := i;
      accumulatedDuration := 0;
      accumulatedDistance := 0
    |}
  else
    Normal {|
      segments := segments st;
      currentSegmentStart := currentSegmentStart st;
      accumulatedDuration := accumulatedDuration';
      accumulatedDistance := accumulatedDistance'
    |}.

Definition segmentRoute (directionsData : option DirectionsResult.t)
    (targetDrivingHoursPerSegment : number) : Completion (list RouteSegment.t) :=
  match directionsData with
  | None => Normal []
  | Some data =>
    match DirectionsResult.geometry data with
    | None => Normal []
    | Some geometry =>
      match Geometry.coordinates geometry with
      | None => Normal []
      | Some coordinates =>
        let totalDurationHours := DirectionsResult.duration data / 3600 in
        let totalDistance := DirectionsResult.distance data in
        if totalDurationHours <=? targetDrivingHoursPerSegment then
          Normal [ {|
            RouteSegment.startIndex := 0;
            RouteSegment.endIndex := Z.of_nat (length coordinates) - 1;
            RouteSegment.startCoordinate := array_get coordinates 0;
            RouteSegment.endCoordinate :=
              array_get coordinates (Z.of_nat (length coordinates) - 1);
            RouteSegment.distance := totalDistance;
            RouteSegment.duration := DirectionsResult.duration data;
            RouteSegment.coordinates := coordinates
          |} ]
        else
          let targetDurationSeconds := targetDrivingHoursPerSegment * 3600 in
          let distanceTimeRatio := totalDistance / DirectionsResult.duration data in
          st <- for_each (loop_body coordinates distanceTimeRatio targetDurationSeconds)
                  (seq 1 (length coordinates - 1))
                  {| segments := [];
                     currentSegmentStart := 0;
                     accumulatedDuration := 0;
                     accumulatedDistance := 0 |} ;;
          Normal (segments st)
      end
    end
  end.

(** The route's coordinate array, when both [geometry] and [coordinates] are
    present (the value the guard at the top of [segmentRoute] lets through). *)
Definition route_coordinates (data : DirectionsResult.t) : option (list Coord) :=
  match DirectionsResult.geometry data with
  | Some geometry => Geometry.coordinates geometry
  | None => None
  end.

(** The Haversine length of a polyline, accumulated edge by edge from [0] in
    travel order, the way the loop of [segmentRoute] accumulates it. *)
Definition add_edge (st : number * Coord) (c : Coord) : number * Coord :=
  (fst st + haversine (fst (snd st)) (snd (snd st)) (fst c) (snd c), c).

Definition pathLength (polyline : list Coord) : number :=
  match polyline with
  | [] => 0
  | c :: rest => fst (fold_left add_edge rest (0, c))
  end.

(** The default value of the second parameter. *)
Definition segmentRoute_default (directionsData : option DirectionsResult.t) :=
  segmentRoute directionsData 5.

End Mapbox.

(** ** A reference [Math] object

    A small polynomial implementation of the three approximated functions,
    accurate to a few ulps on the ranges [calculateDistance] uses them on
    (half-angles in [[-pi, pi]], latitudes in [[-pi/2, pi/2]], and the first
    quadrant for [atan2]).  It returns the values ECMAScript prescribes at the
    special arguments used below.  The theorems quantify over every
    [MathObject]; this one makes the embedding executable. *)

Module RefMath.

Local Open Scope float_scope.

(** [acc + sum of the next n terms], where each term is the previous one times
    [-z / ((k+1) (k+2))]. *)
Fixpoint taylor (n : nat) (z term k acc : number) : number :=
  match n with
  | O => acc
  | S n' =>
    let term' := - (term * z / ((k + 1) * (k + 2))) in
    taylor n' z term' (k + 2) (acc + term')
  end.

Definition sin (x : number) : number := x * taylor 16 (x * x) 1 1 1.

Definition cos (x : number) : number :=
  let v := taylor 16 (x * x) 1 0 1 in
  if (-1 <=? v) && (v <=? 1) then v else 1.

(** [sum of (-z)^j / (2j+1)], the series of [atan t / t] at [z = t*t]. *)
Fixpoint atan_series (n : nat) (z pw k acc : number) : number :=
  match n with
  | O => acc
  | S n' =>
    let pw' := - (pw * z) in
    atan_series n' z pw' (k + 2) (acc + pw' / (k + 2))
  end.

(** [atan t = 2 * atan (t / (1 + sqrt (1 + t*t)))] *)
Definition halve (t : number) : number := t / (1 + Math_sqrt (1 + t * t)).

Definition atan_unit (t : number) : number :=
  let u := halve (halve t) in
  4 * (u * atan_series 14 (u * u) 1 1 1).

Definition atan_pos (t : number) : number :=
  if t <=? 1 then atan_unit t else Math_PI / 2 - atan_unit (1 / t).

Definition is_negative (v : number) : bool :=
  (v <? 0) || ((v =? 0) && (1 / v <? 0)).

Definition clamp0 (r : number) : number := if r <? 0 then 0 else r.

Definition atan2 (y x : number) : number :=
  if (y =? 0) && (0 <? x) then y
  else if is_nan y || is_nan x then nan
  else
    let ay := abs y in
    let r :=
      if ay =? 0 then (if is_negative x then Math_PI else 0)
      else if x =? 0 then Math_PI / 2
      else if 0 <? x then clamp0 (atan_pos (ay / x))
      else clamp0 (Math_PI - atan_pos (ay / - x)) in
    if is_negative y then - r else r.

Definition Math : MathObject :=
  {| Math_sin := sin; Math_cos := cos; Math_atan2 := atan2 |}.

End RefMath.

(** ** Waypoint selection

    [handleSubmit] converts the recommended places to POIs, filters the ones
    with invalid coordinates and passes their coordinates to [getDirections],
    which forwards at most 23 of them to the routing engine. *)

Module GeminiRecommendedPlace.
Record t := {
  name : string;
  description : string;
  reasonToStop : string;
  (** [coordinate?: [number, number]], parsed from the recommender's JSON:
      absent, or an array of any length. *)
  coordinate : option (list number);
  category : option string
}.
End GeminiRecommendedPlace.

Module PlaceOfInterest.
Record t := {
  (** [`route-place-${index}-${Date.now()}`], kept as its two components. *)
  id : nat * Z;
  name : string;
  category : string;
  coordinate : list number;
  distance : number;
  importance : number;
  description : string
}.
End PlaceOfInterest.

Section Waypoints.

Local Open Scope float_scope.

(** The value of [Date.now()] during the conversion. *)
Variable now : Z.

(** [place.category || 'Route Stop']: the empty string is falsy. *)
Definition category_or_default (c : option string) : string :=
  match c with
  | Some EmptyString | None => "Route Stop"%string
  | Some s => s
  end.

(** [place.coordinate || [0, 0]]: every array is truthy. *)
Definition coordinate_or_default (c : option (list number)) : list number :=
  match c with
  | Some a => a
  | None => [0; 0]
  end.

Definition newline : string := String (ascii_of_nat 10) EmptyString.

Definition toPOI (index : nat) (place : GeminiRecommendedPlace.t) : PlaceOfInterest.t :=
  {| PlaceOfInterest.id := (index, now);
     PlaceOfInterest.name := GeminiRecommendedPlace.name place;
     PlaceOfInterest.category :=
       category_or_default (GeminiRecommendedPlace.category place);
     PlaceOfInterest.description :=
       (GeminiRecommendedPlace.description place ++ newline ++ newline ++
        GeminiRecommendedPlace.reasonToStop place)%string;
     PlaceOfInterest.coordinate :=
       coordinate_or_default (GeminiRecommendedPlace.coordinate place);
     PlaceOfInterest.distance := 0;
     PlaceOfInterest.importance := 3 |}.

(** [array.map((place, index) => ...)] *)
Fixpoint mapi_from {A B} (f : nat -> A -> B) (index : nat) (l : list A) : list B :=
  match l with
  | [] => []
  | x :: rest => f index x :: mapi_from f (S index) rest
  end.

(** The filter predicate of [handleSubmit]:
    [poi.coordinate && poi.coordinate.length === 2 &&
     poi.coordinate[0] !== 0 && poi.coordinate[1] !== 0]. *)
Definition has_valid_coordinate (poi : PlaceOfInterest.t) : bool :=
  match PlaceOfInterest.coordinate poi with
  | [c0; c1] => strict_neq c0 0 && strict_neq c1 0
  | _ => false
  end.

Definition routePOIs (recommendedPlaces : list GeminiRecommendedPlace.t)
  : list PlaceOfInterest.t :=
  filter has_valid_coordinate (mapi_from toPOI 0 recommendedPlaces).

(** [routePOIs.length > 0 ? routePOIs.map((poi) => poi.coordinate) : undefined] *)
Definition waypoints (pois : list PlaceOfInterest.t) : option (list (list number)) :=
  match pois with
  | [] => None
  | _ => Some (map PlaceOfInterest.coordinate pois)
  end.

(** The waypoints [getDirections] puts between origin and destination:
    [waypoints.slice(0, 23)] when the argument is a non-empty array. *)
Definition limitedWaypoints (waypoints : option (list (list number)))
  : list (list number) :=
  match waypoints with
  | Some w => if (0 <? length w)%nat then slice w 0 23 else []
  | None => []
  end.

(** The stops of the routing request, in order. *)
Definition requestStops (origin destination : list number)
    (waypoints : option (list (list number))) : list (list number) :=
  origin :: limitedWaypoints waypoints ++ [destination].

(** The composition the specification calls [selectWaypoints]: from the
    recommended places to the waypoints that reach the routing engine. *)
Definition selectWaypoints (recommendedPlaces : list GeminiRecommendedPlace.t)
  : list (list number) :=
  limitedWaypoints (waypoints (routePOIs recommendedPlaces)).

End Waypoints.

(** ** Strings *)

From Stdlib Require DecimalString.

(** [s.startsWith(prefix)] *)
Fixpoint startsWith (s prefix : string) : bool :=
  match prefix, s with
  | EmptyString, _ => true
  | String p prefix', String c s' => Ascii.eqb c p && startsWith s' prefix'
  | String _ _, EmptyString => false
  end.

(** [s.includes(search)] *)
Fixpoint includes (s search : string) : bool :=
  startsWith s search ||
  match s with
  | EmptyString => false
  | String _ s' => includes s' search
  end.

(** The template literal [`${n}`] of a non-negative integer. *)
Definition string_of_nat (n : nat) : string :=
  DecimalString.NilEmpty.string_of_uint (Nat.to_uint n).

(** [array.join(separator)] on an array of strings. *)
Definition join (separator : string) (array : list string) : string :=
  String.concat separator array.

(** ** Category preferences: the prompt, the keyword filter and the loading
    message *)

Module CategoryPreferences.
Record t := {
  nationalParks : bool;
  landmarks : bool;
  scenicViews : bool;
  food : bool;
  cities : bool;
  quirky : bool
}.
End CategoryPreferences.

Section Categories.

Local Open Scope string_scope.

(** [selectedCategories] of [generatePlacesRecommendationPrompt], in the
    order of its [push] calls. *)
Definition selectedCategories (preferences : CategoryPreferences.t) : list string :=
  ((if CategoryPreferences.nationalParks preferences
    then ["national parks, state parks, nature preserves"] else []) ++
   (if CategoryPreferences.landmarks preferences
    then ["landmarks, monuments, historic sites"] else []) ++
   (if CategoryPreferences.scenicViews preferences
    then ["scenic viewpoints, natural wonders, geological features"] else []) ++
   (if CategoryPreferences.food preferences
    then ["iconic food stops, famous restaurants, local cuisine hotspots"] else []) ++
   (if CategoryPreferences.cities preferences
    then ["interesting small towns, cities with unique character"] else []) ++
   (if CategoryPreferences.quirky preferences
    then ["quirky roadside attractions, unusual sites, world's largest objects"]
    else []))%list.

(** [categoryFocus] of [generatePlacesRecommendationPrompt]: the sentence
    that restricts the prompt to the selected categories, or the empty
    string. *)
Definition categoryFocus (preferences : option CategoryPreferences.t) : string :=
  match preferences with
  | Some preferences =>
      let selectedCategories := selectedCategories preferences in
      if (0 <? length selectedCategories)%nat then
        newline ++ newline ++
        "The traveler has SPECIFICALLY requested to see ONLY the following types of attractions: "
        ++ join "; " selectedCategories ++ "."
      else EmptyString
  | None => EmptyString
  end.

(** The keyword array [getGeminiRoutePlacesRecommendations] builds from the
    preferences, in the order of its [push] calls. *)
Definition categoryKeywords (preferences : CategoryPreferences.t) : list string :=
  ((if CategoryPreferences.nationalParks preferences
    then ["park"; "preserve"; "forest"; "natural"; "nature"] else []) ++
   (if CategoryPreferences.landmarks preferences
    then ["landmark"; "monument"; "historic"; "heritage"] else []) ++
   (if CategoryPreferences.scenicViews preferences
    then ["scenic"; "view"; "overlook"; "vista"; "mountain"; "lake"; "valley"] else []) ++
   (if CategoryPreferences.food preferences
    then ["food"; "restaurant"; "cuisine"; "diner"; "cafe"; "dining"] else []) ++
   (if CategoryPreferences.cities preferences
    then ["city"; "town"; "village"; "urban"; "downtown"] else []) ++
   (if CategoryPreferences.quirky preferences
    then ["quirky"; "unusual"; "strange"; "roadside"; "weird"; "unique"] else []))%list.

(** [String.prototype.toLowerCase] *)
Variable toLowerCase : string -> string.

(** The predicate of the [filter] call: the category, when there is one,
    contains a keyword, or the name, the description or the reason does. *)
Definition matchesKeywords (categoryKeywords : list string)
    (place : GeminiRecommendedPlace.t) : bool :=
  (match GeminiRecommendedPlace.category place with
   | Some EmptyString | None => false
   | Some category =>
       let lowerCategory := toLowerCase category in
       existsb (fun keyword => includes lowerCategory keyword) categoryKeywords
   end) ||
  (let lowerName := toLowerCase (GeminiRecommendedPlace.name place) in
   let lowerDesc := toLowerCase (GeminiRecommendedPlace.description place) in
   let lowerReason := toLowerCase (GeminiRecommendedPlace.reasonToStop place) in
   existsb (fun keyword =>
              includes lowerName keyword || includes lowerDesc keyword ||
              includes lowerReason keyword) categoryKeywords).

(** What [getGeminiRoutePlacesRecommendations] does to
    [result.recommendedPlaces] once the response is parsed. *)
Definition applyPreferences (preferences : option CategoryPreferences.t)
    (recommendedPlaces : option (list GeminiRecommendedPlace.t))
  : option (list GeminiRecommendedPlace.t) :=
  match preferences, recommendedPlaces with
  | Some preferences, Some places =>
      if (0 <? length places)%nat then
        let categoryKeywords := categoryKeywords preferences in
        if (0 <? length categoryKeywords)%nat then
          let filteredPlaces := filter (matchesKeywords categoryKeywords) places in
          if (0 <? length filteredPlaces)%nat then Some filteredPlaces else Some places
        else Some places
      else Some places
  | _, _ => recommendedPlaces
  end.

(** [Object.entries(categoryPreferences)] on the page: the six keys in the
    order of the object literal. *)
Definition entries (categoryPreferences : CategoryPreferences.t) : list (string * bool) :=
  [("nationalParks", CategoryPreferences.nationalParks categoryPreferences);
   ("landmarks", CategoryPreferences.landmarks categoryPreferences);
   ("scenicViews", CategoryPreferences.scenicViews categoryPreferences);
   ("food", CategoryPreferences.food categoryPreferences);
   ("cities", CategoryPreferences.cities categoryPreferences);
   ("quirky", CategoryPreferences.quirky categoryPreferences)].

(** [Object.values(categoryPreferences).filter(Boolean).length] *)
Definition getActiveCategoryCount (categoryPreferences : CategoryPreferences.t) : nat :=
  length (filter (fun value => value) (map snd (entries categoryPreferences))).

(** The [switch] of the reactive block. *)
Definition categoryName (activeCategory : option string) : string :=
  match activeCategory with
  | Some key =>
      if key =? "nationalParks" then "national parks"
      else if key =? "landmarks" then "landmarks"
      else if key =? "scenicViews" then "scenic views"
      else if key =? "food" then "food stops"
      else if key =? "cities" then "cities"
      else if key =? "quirky" then "quirky attractions"
      else "places"
  | None => "places"
  end.

(** The reactive block that sets [poiLoadingMessage]. *)
Definition poiLoadingMessage (categoryPreferences : CategoryPreferences.t) : string :=
  let count := getActiveCategoryCount categoryPreferences in
  if (count =? 0)%nat then "Finding interesting places along your journey..."
  else if (count =? 1)%nat then
    let activeCategory :=
      option_map fst (find (fun entry => snd entry) (entries categoryPreferences)) in
    "Finding " ++ categoryName activeCategory ++ " along your journey..."
  else if (count =? length (entries categoryPreferences))%nat then
    "Finding all types of interesting places along your journey..."
  else "Finding your selected categories of places along your journey...".

End Categories.

(** ** The coordinates of the routing request *)

Section Directions.

Local Open Scope string_scope.

(** [Number::toString], the conversion a template literal applies. *)
Variable Number_toString : number -> string.

(** [`${array[i]}`]: an index out of range reads [undefined]. *)
Definition template (value : option number) : string :=
  match value with
  | Some v => Number_toString v
  | None => "undefined"
  end.

(** [`${c[0]},${c[1]}`] *)
Definition lonlat (c : list number) : string :=
  template (array_get c 0) ++ "," ++ template (array_get c 1).

(** [coordinatesString] of [getDirections], as its statements build it. *)
Definition coordinatesString (origin destination : list number)
    (waypoints : option (list (list number))) : string :=
  let coordinatesString := lonlat origin in
  let coordinatesString :=
    match waypoints with
    | Some waypoints =>
        if (0 <? length waypoints)%nat then
          let limitedWaypoints := slice waypoints 0 23 in
          fold_left (fun acc waypoint => acc ++ ";" ++ lonlat waypoint)
                    limitedWaypoints coordinatesString
        else coordinatesString
    | None => coordinatesString
    end in
  coordinatesString ++ ";" ++ lonlat destination.

End Directions.

(** ** The location autocomplete component *)

Module Location.
Record t := {
  id : string;
  place_name : string;
  center : list number
}.
End Location.

Module Autocomplete.

(** The component's variables, and the [select] events it has dispatched
    (latest first). *)
Record state := {
  value : string;
  suggestions : list Location.t;
  loading : bool;
  focused : bool;
  selectedIndex : Z;
  dispatched : list Location.t
}.

Definition initial : state :=
  {| value := EmptyString; suggestions := []; loading := false; focused := false;
     selectedIndex := -1; dispatched := [] |}.

(** What can happen to the component.  [handleInput] awaits the search, so
    its two halves are separate events, and others can fall in between. *)
Inductive event :=
| Typed (text : string)                  (* bind:value *)
| InputStarted                           (* handleInput, up to the await *)
| InputResolved (results : list Location.t)  (* handleInput, after the await *)
| InputRejected                          (* handleInput, catch and finally *)
| Keydown (key : string)                 (* handleKeydown *)
| Mousedown (i : nat)                    (* on the i-th list item *)
| Mouseover (i : nat)                    (* on the i-th list item *)
| Focus
| BlurTimeout.                           (* the timer of handleBlur *)

Section Handlers.

Local Open Scope string_scope.
Local Open Scope Z_scope.

(** [String.prototype.trim] *)
Variable trim : string -> string.

(** [handleSelect(location)]; reading [place_name] of [undefined] throws. *)
Definition handleSelect (st : state) (location : option Location.t) : Completion state :=
  match location with
  | None => Throw TypeError
  | Some location =>
      Normal {| value := Location.place_name location;
                suggestions := [];
                loading := loading st;
                focused := focused st;
                selectedIndex := selectedIndex st;
                dispatched := location :: dispatched st |}
  end.

Definition handleKeydown (st : state) (key : string) : Completion state :=
  if (length (suggestions st) =? 0)%nat then Normal st
  else if (key =? "ArrowDown")%string then
    Normal {| value := value st; suggestions := suggestions st;
              loading := loading st; focused := focused st;
              selectedIndex :=
                Z.min (selectedIndex st + 1) (Z.of_nat (length (suggestions st)) - 1);
              dispatched := dispatched st |}
  else if (key =? "ArrowUp")%string then
    Normal {| value := value st; suggestions := suggestions st;
              loading := loading st; focused := focused st;
              selectedIndex := Z.max (selectedIndex st - 1) (-1);
              dispatched := dispatched st |}
  else if (key =? "Enter")%string then
    if 0 <=? selectedIndex st
    then handleSelect st (array_get (suggestions st) (selectedIndex st))
    else Normal st
  else if (key =? "Escape")%string then
    Normal {| value := value st; suggestions := [];
              loading := loading st; focused := focused st;
              selectedIndex := selectedIndex st;
              dispatched := dispatched st |}
  else Normal st.

(** The list is rendered when [suggestions.length > 0 && focused]; an item
    that is not rendered receives no mouse event. *)
Definition rendered (st : state) (i : nat) : option Location.t :=
  if (0 <? length (suggestions st))%nat && focused st
  then nth_error (suggestions st) i else None.

Definition handle (st : state) (ev : event) : Completion state :=
  match ev with
  | Typed text =>
      Normal {| value := text; suggestions := suggestions st;
                loading := loading st; focused := focused st;
                selectedIndex := selectedIndex st; dispatched := dispatched st |}
  | InputStarted =>
      if (String.length (trim (value st)) <? 2)%nat then
        Normal {| value := value st; suggestions := [];
                  loading := loading st; focused := focused st;
                  selectedIndex := selectedIndex st; dispatched := dispatched st |}
      else
        Normal {| value := value st; suggestions := suggestions st;
                  loading := true; focused := focused st;
                  selectedIndex := selectedIndex st; dispatched := dispatched st |}
  | InputResolved results =>
      Normal {| value := value st; suggestions := results;
                loading := false; focused := focused st;
                selectedIndex := -1; dispatched := dispatched st |}
  | InputRejected =>
      Normal {| value := value st; suggestions := suggestions st;
                loading := false; focused := focused st;
                selectedIndex := selectedIndex st; dispatched := dispatched st |}
  | Keydown key => handleKeydown st key
  | Mousedown i =>
      match rendered st i with
      | Some suggestion => handleSelect st (Some suggestion)
      | None => Normal st
      end
  | Mouseover i =>
      match rendered st i with
      | Some _ =>
          Normal {| value := value st; suggestions := suggestions st;
                    loading := loading st; focused := focused st;
                    selectedIndex := Z.of_nat i; dispatched := dispatched st |}
      | None => Normal st
      end
  | Focus =>
      Normal {| value := value st; suggestions := suggestions st;
                loading := loading st; focused := true;
                selectedIndex := selectedIndex st; dispatched := dispatched st |}
  | BlurTimeout =>
      Normal {| value := value st; suggestions := suggestions st;
                loading := loading st; focused := false;
                selectedIndex := selectedIndex st; dispatched := dispatched st |}
  end.

(** The component after a sequence of events. *)
Fixpoint run (st : state) (events : list event) : Completion state :=
  match events with
  | [] => Normal st
  | ev :: rest => st' <- handle st ev ;; run st' rest
  end.

End Handlers.

End Autocomplete.

(** ** Points of interest from the Mapbox search *)

(** [s.split(separator)] for a non-empty separator: the pieces between the
    successive leftmost occurrences of the separator.  [skip] counts the
    characters of an occurrence still to be passed over, [chunk] is the
    piece read so far. *)
Fixpoint split_aux (separator s : string) (skip : nat) (chunk : string) : list string :=
  match s with
  | EmptyString => [chunk]
  | String c rest =>
      match skip with
      | S k => split_aux separator rest k chunk
      | O =>
          if startsWith s separator
          then chunk :: split_aux separator rest (String.length separator - 1) EmptyString
          else split_aux separator rest 0 (chunk ++ String c EmptyString)
      end
  end.

Definition split (separator s : string) : list string :=
  split_aux separator s 0 EmptyString.

(** [value || fallback] on an optional string: [undefined] and the empty
    string are falsy. *)
Definition or_else (value : option string) (fallback : string) : string :=
  match value with
  | Some (String _ _ as v) => v
  | _ => fallback
  end.

Module MapboxPOIFeature.
Record properties_t := {
  category : option string;
  description : option string
}.
Record t := {
  id : option string;
  text : option string;
  place_name : option string;
  center : Coord;
  place_type : option (list string);
  properties : option properties_t
}.
End MapboxPOIFeature.

(** The [PlaceOfInterest] objects of the Mapbox service, with the [id] as the
    string it is and the optional [address]. *)
Module Place.
Record t := {
  id : string;
  name : string;
  category : string;
  coordinate : Coord;
  distance : number;
  address : option string;
  description : string;
  importance : number
}.
End Place.

(** [Map.prototype.set] on a map kept as its entries in insertion order. *)
Fixpoint Map_set {V} (entries : list (nat * V)) (key : nat) (value : V) : list (nat * V) :=
  match entries with
  | [] => [(key, value)]
  | (k, v) :: rest =>
      if (k =? key)%nat then (k, value) :: rest else (k, v) :: Map_set rest key value
  end.

Section MapboxPOIs.

Variable Math : MathObject.

Local Open Scope string_scope.
Local Open Scope float_scope.

(** [feature.place_name?.split(', ').slice(1).join(', ') || ''] *)
Definition address (place_name : option string) : string :=
  or_else (option_map (fun p => join ", " (tl (split ", " p))) place_name) EmptyString.

(** The category of a feature: from its properties, else its first place
    type, else the requested category. *)
Definition poiCategory (category : string) (feature : MapboxPOIFeature.t) : string :=
  match option_map MapboxPOIFeature.category (MapboxPOIFeature.properties feature) with
  | Some (Some (String _ _ as c)) => c
  | _ =>
      match MapboxPOIFeature.place_type feature with
      | Some (t :: _) => t
      | _ => category
      end
  end.

(** The callback of [data.features.map] in [findMapboxPOIs]. *)
Definition toMapboxPlace (coordinate : Coord) (category : string)
    (index : nat) (feature : MapboxPOIFeature.t) : Completion Place.t :=
  let name := or_else (MapboxPOIFeature.text feature)
                      ("Place " ++ string_of_nat (index + 1)) in
  let address := address (MapboxPOIFeature.place_name feature) in
  let featureLng := fst (MapboxPOIFeature.center feature) in
  let featureLat := snd (MapboxPOIFeature.center feature) in
  distance <- calculateDistance Math (Some coordinate) (Some (featureLng, featureLat)) ;;
  let poiCategory := poiCategory category feature in
  Normal {|
    Place.id := or_else (MapboxPOIFeature.id feature)
                              ("mapbox-poi-" ++ string_of_nat index);
    Place.name := name;
    Place.category := poiCategory;
    Place.coordinate := MapboxPOIFeature.center feature;
    Place.distance := distance;
    Place.address := Some address;
    Place.description :=
      or_else (match MapboxPOIFeature.properties feature with
               | Some p => MapboxPOIFeature.description p
               | None => None
               end)
              ("A " ++ poiCategory ++ " near your route.");
    Place.importance := if (index =? 0)%nat then 1 else 0.5 |}.

(** [array.map(f)] when [f] can throw. *)
Fixpoint map_indexed {A B} (f : nat -> A -> Completion B) (index : nat) (l : list A)
  : Completion (list B) :=
  match l with
  | [] => Normal []
  | x :: rest =>
      y <- f index x ;;
      ys <- map_indexed f (S index) rest ;;
      Normal (y :: ys)
  end.

(** [findMapboxPOIs], given what the search request brought back:
    [features] is [data.features] of a successful response, [None] when the
    request failed or the response has no feature array.  Whatever is
    thrown inside is caught and turned into the empty list. *)
Definition findMapboxPOIs (features : option (list MapboxPOIFeature.t))
    (coordinate : Coord) (category : string) : list Place.t :=
  match features with
  | Some ((_ :: _) as features) =>
      match map_indexed (toMapboxPlace coordinate category) 0 features with
      | Normal pois => pois
      | Throw _ => []
      end
  | _ => []
  end.

(** [coord[0]] and [coord[1]]: reading an index of [undefined] throws. *)
Definition read (coord : option Coord) : Completion Coord :=
  match coord with
  | Some c => Normal c
  | None => Throw TypeError
  end.

(** The simulated place of [findSegmentPOIs]. *)
Definition simulated (i : nat) (startCoord endCoord : option Coord)
  : Completion Place.t :=
  s <- read startCoord ;;
  e <- read endCoord ;;
  Normal {|
    Place.id := "segment-poi-" ++ string_of_nat i;
    Place.name := "Segment " ++ string_of_nat i ++ " Highlight";
    Place.category := "point of interest";
    Place.coordinate :=
      (fst s + (fst e - fst s) * 0.5, snd s + (snd e - snd s) * 0.5);
    Place.distance := 0;
    Place.address := Some ("Along segment " ++ string_of_nat i);
    Place.description :=
      "A simulated point of interest along segment " ++ string_of_nat i ++
      " of your journey.";
    Place.importance := 1 |}.

(** What the search around the midpoint of segment [i] brings back. *)
Variable search : nat -> Coord -> option (list MapboxPOIFeature.t).

(** One turn of the loop of [findSegmentPOIs]. *)
Definition segment_body (segments : list RouteSegment.t) (i : nat)
    (segmentPOIs : list (nat * list Place.t))
  : Completion (list (nat * list Place.t)) :=
  if (i =? length segments - 1)%nat then Normal segmentPOIs
  else if (length segments <=? i + 1)%nat then Normal segmentPOIs
  else
    match nth_error segments i, nth_error segments (i + 1) with
    | Some segment, Some nextSegment =>
        let startCoord := RouteSegment.startCoordinate segment in
        let endCoord := RouteSegment.startCoordinate nextSegment in
        let attempt :=
          s <- read startCoord ;;
          e <- read endCoord ;;
          let midLng := (fst s + fst e) / 2 in
          let midLat := (snd s + snd e) / 2 in
          let pois := findMapboxPOIs (search i (midLng, midLat)) (midLng, midLat)
                                     "attraction" in
          if (0 <? length pois)%nat then Normal (Map_set segmentPOIs i (slice pois 0 1))
          else
            poi <- simulated i startCoord endCoord ;;
            Normal (Map_set segmentPOIs i [poi]) in
        match attempt with
        | Normal segmentPOIs => Normal segmentPOIs
        | Throw _ =>
            poi <- simulated i startCoord endCoord ;;
            Normal (Map_set segmentPOIs i [poi])
        end
    | _, _ => Throw TypeError
    end.

Definition findSegmentPOIs (segments : option (list RouteSegment.t))
  : Completion (list (nat * list Place.t)) :=
  match segments with
  | None | Some [] => Normal []
  | Some segments => for_each (segment_body segments) (seq 0 (length segments)) []
  end.

End MapboxPOIs.

(** ** Places at the destination *)

Module GeminiPOIRecommendation.
Record t := {
  name : string;
  category : string;
  description : string;
  coordinate : option Coord;
  address : option string
}.
End GeminiPOIRecommendation.

Section DestinationPOIs.

Local Open Scope string_scope.
Local Open Scope float_scope.

(** [`${Date.now()}`] at the n-th reading of the clock during a call. *)
Variable Date_now : nat -> string.

(** The callback of [recommendations.map] in [getGeminiPOIRecommendations]. *)
Definition toDestinationPOI (coordinates : Coord) (index : nat)
    (rec : GeminiPOIRecommendation.t) : Place.t :=
  {| Place.id := "gemini-poi-" ++ string_of_nat index ++ "-" ++ Date_now index;
     Place.name := GeminiPOIRecommendation.name rec;
     Place.category := GeminiPOIRecommendation.category rec;
     Place.description := GeminiPOIRecommendation.description rec;
     Place.coordinate :=
       match GeminiPOIRecommendation.coordinate rec with
       | Some c => c
       | None => coordinates
       end;
     Place.distance := 0;
     Place.address := Some (or_else (GeminiPOIRecommendation.address rec) EmptyString);
     Place.importance := if (index =? 0)%nat then 3 else 2 |}.

(** [getGeminiPOIRecommendations], given what the request and the parsing
    of its response yielded: [None] stands for every way the call rejects
    (no API key, an HTTP error, no candidate, no JSON array). *)
Definition getGeminiPOIRecommendations
    (recommendations : option (list GeminiPOIRecommendation.t)) (coordinates : Coord)
  : option (list Place.t) :=
  option_map (mapi_from (toDestinationPOI coordinates) 0) recommendations.

(** [findDestinationPOIs]: the recommendations, or one fallback place when
    the call above rejects. *)
Definition findDestinationPOIs
    (recommendations : option (list GeminiPOIRecommendation.t))
    (coordinate : Coord) (placeName : string) : list Place.t :=
  match getGeminiPOIRecommendations recommendations coordinate with
  | Some pois => pois
  | None =>
      [ {| Place.id := "fallback-poi-1-" ++ Date_now 0;
           Place.name := "Points of Interest";
           Place.category := "Information";
           Place.description :=
             "Set up Gemini API to get real attraction recommendations for "
             ++ placeName ++ ".";
           Place.coordinate := (fst coordinate, snd coordinate);
           Place.distance := 0;
           Place.address := None;
           Place.importance := 1 |} ]
  end.

(** The test of [fetchDestinationPOIs] on the page:
    [destinationPOIs.length === 1 && destinationPOIs[0].id.startsWith('fallback')]. *)
Definition usesFallback (destinationPOIs : list Place.t) : bool :=
  (length destinationPOIs =? 1)%nat &&
  match nth_error destinationPOIs 0 with
  | Some poi => startsWith (Place.id poi) "fallback"
  | None => false
  end.

End DestinationPOIs.

(** * Vocabulary of the properties *)

(** ** What is assumed of [Math]

    ECMAScript fixes the results of [Math.sin], [Math.cos] and [Math.atan2]
    at a few arguments only; these are the ones used below:
    [Math.sin(+0)] is [+0], [Math.cos(+0)] is [1], and [Math.atan2(+0, x)] is
    [+0] for [x > 0]. *)
Record ecma_special_values (Math : MathObject) : Prop := {
  sin_pos_zero : Math_sin Math 0%float = 0%float;
  cos_pos_zero : Math_cos Math 0%float = 1%float;
  atan2_pos_zero : forall x, (0 <? x)%float = true -> Math_atan2 Math 0%float x = 0%float
}.

(** The next three properties hold of the implementations in use, which
    derive from fdlibm, but ECMAScript does not require them. *)

(** [Math.sin] is odd. *)
Definition sin_odd (Math : MathObject) : Prop :=
  forall x, Math_sin Math (- x)%float = (- Math_sin Math x)%float.

(** On finite arguments [Math.cos] returns a value in [[-1, 1]]. *)
Definition cos_unit_range (Math : MathObject) : Prop :=
  forall x, is_finite x = true ->
            (-1 <=? Math_cos Math x)%float = true /\ (Math_cos Math x <=? 1)%float = true.

(** For [y] that is not negative, and not [-0] unless [x > 0],
    [Math.atan2(y, x)] is not negative (it lies in [[0, pi]] or is NaN). *)
Definition atan2_upper_half (Math : MathObject) : Prop :=
  forall y x, (y <? 0)%float = false ->
              (y = neg_zero -> (0 <? x)%float = true) ->
              (Math_atan2 Math y x <? 0)%float = false.

(** ** Coordinates and numbers *)

(** Longitude in [[-180, 180]] and latitude in [[-90, 90]]. *)
Definition in_range (c : Coord) : bool :=
  ((-180 <=? fst c) && (fst c <=? 180) && (-90 <=? snd c) && (snd c <=? 90))%float.

(** [a[0] === b[0] && a[1] === b[1]] *)
Definition same_coordinate (a b : Coord) : bool :=
  ((fst a =? fst b) && (snd a =? snd b))%float.

(** Half of an angle given in degrees, in radians, as [calculateDistance]
    computes the arguments of [Math.sin]. *)
Definition half_angle (degrees : number) : number :=
  (degrees * Math_PI / 180 / 2)%float.

(** A number that is a zero or a finite value with exponent at most [E]
    (so of magnitude below [2 ^ (E + 53)]). *)
Definition finite_le (E : Z) (X : spec_float) : Prop :=
  match X with
  | S754_zero _ => True
  | S754_finite _ _ e => (e <= E)%Z
  | _ => False
  end.

(** [segments.reduce((sum, s) => sum + s.distance, 0)] *)
Definition sum_distance (segs : list RouteSegment.t) : number :=
  fold_left (fun sum s => (sum + RouteSegment.distance s)%float) segs 0%float.

(** Equality up to rounding: a relative error of at most [1e-9]. *)
Definition fp_close (x y : number) : bool :=
  (abs (x - y) <=? 1e-9 * abs y)%float.

(** ** Segment lists *)

(** [0 <= startIndex < endIndex <= len - 1] *)
Definition indices_ok (len : nat) (s : RouteSegment.t) : Prop :=
  (0 <= RouteSegment.startIndex s < RouteSegment.endIndex s)%Z /\
  (RouteSegment.endIndex s <= Z.of_nat len - 1)%Z.

(** The segments tile the index range [[from, to]]: the first starts at
    [from], each one starts where the previous one ends, the last ends at
    [to]. *)
Fixpoint chained (from : Z) (segs : list RouteSegment.t) (to : Z) : Prop :=
  match segs with
  | [] => from = to
  | s :: rest => RouteSegment.startIndex s = from /\ chained (RouteSegment.endIndex s) rest to
  end.

(** The segment was closed because the accumulated duration reached the
    target, unless it ends at the last coordinate. *)
Definition reached_target (coords : list Coord) (target : number) (s : RouteSegment.t) : Prop :=
  (RouteSegment.endIndex s < Z.of_nat (length coords) - 1)%Z ->
  geb (RouteSegment.duration s) target = true.

Section LoopInvariant.

Variable Math : MathObject.

(** What a pushed segment records about the route it was cut from. *)
Definition segment_of (coords : list Coord) (s : RouteSegment.t) : Prop :=
  RouteSegment.coordinates s =
    slice coords (Z.to_nat (RouteSegment.startIndex s))
                 (Z.to_nat (RouteSegment.endIndex s) + 1) /\
  RouteSegment.startCoordinate s = nth_error coords (Z.to_nat (RouteSegment.startIndex s)) /\
  RouteSegment.endCoordinate s = nth_error coords (Z.to_nat (RouteSegment.endIndex s)) /\
  RouteSegment.distance s = pathLength Math (RouteSegment.coordinates s).

(** The state of the loop on entry to iteration [i]. *)
Record loop_inv (coords : list Coord) (target : number) (i : nat) (st : LoopState) : Prop := {
  inv_start : (currentSegmentStart st < i)%nat;
  inv_final : i = length coords -> currentSegmentStart st = (i - 1)%nat;
  inv_nonempty : (0 < currentSegmentStart st)%nat -> segments st <> [];
  inv_chain : chained 0 (segments st) (Z.of_nat (currentSegmentStart st));
  inv_indices : Forall (indices_ok (length coords)) (segments st);
  inv_duration : Forall (reached_target coords target) (segments st);
  inv_segment : Forall (segment_of coords) (segments st);
  inv_distance :
    accumulatedDistance st = pathLength Math (slice coords (currentSegmentStart st) i)
}.

End LoopInvariant.

(** ** Concrete routes *)

(** San Francisco, a point near Fresno, Los Angeles; 600 km in 6 hours. *)
Definition california_route : DirectionsResult.t :=
  {| DirectionsResult.distance := 600000;
     DirectionsResult.duration := 21600;
     DirectionsResult.geometry :=
       Some {| Geometry.coordinates :=
                 Some [(-122.42, 37.77); (-119.5, 36.5); (-118.24, 34.05)]%float |} |}.

(** A 1 km, 10 hour route whose two coordinates coincide (on the equator). *)
Definition coincident_route : DirectionsResult.t :=
  {| DirectionsResult.distance := 1000;
     DirectionsResult.duration := 36000;
     DirectionsResult.geometry :=
       Some {| Geometry.coordinates := Some [(-78.5, 0); (-78.5, 0)]%float |} |}.

(** A route with a single coordinate. *)
Definition single_point_route : DirectionsResult.t :=
  {| DirectionsResult.distance := 0;
     DirectionsResult.duration := 0;
     DirectionsResult.geometry :=
       Some {| Geometry.coordinates := Some [(-122.42, 37.77)]%float |} |}.

(** A route whose coordinate array is empty. *)
Definition empty_route : DirectionsResult.t :=
  {| DirectionsResult.distance := 0;
     DirectionsResult.duration := 0;
     DirectionsResult.geometry := Some {| Geometry.coordinates := Some [] |} |}.

(** ** Waypoint rules *)

(** The coordinate a place contributes according to the specification's
    validation rule: present, of length 2, and not the sentinel [[0, 0]]. *)
Definition promoted_as_specified (place : GeminiRecommendedPlace.t) : option (list number) :=
  match GeminiRecommendedPlace.coordinate place with
  | Some [c0; c1] => if ((c0 =? 0) && (c1 =? 0))%float then None else Some [c0; c1]
  | _ => None
  end.

(** The same rule with the sentinel test replaced by the one the filter
    makes: neither component is zero. *)
Definition promoted (place : GeminiRecommendedPlace.t) : option (list number) :=
  match GeminiRecommendedPlace.coordinate place with
  | Some [c0; c1] => if ((c0 =? 0) || (c1 =? 0))%float then None else Some [c0; c1]
  | _ => None
  end.

(** The coordinates of the places a rule promotes, in the order of the input. *)
Definition promoted_coordinates (rule : GeminiRecommendedPlace.t -> option (list number))
    (places : list GeminiRecommendedPlace.t) : list (list number) :=
  flat_map (fun place => match rule place with Some c => [c] | None => [] end) places.

(** [l1] is obtained from [l2] by deleting elements, keeping the order. *)
Inductive Subsequence {A : Type} : list A -> list A -> Prop :=
| Subsequence_nil : Subsequence [] []
| Subsequence_skip (x : A) (l1 l2 : list A) :
    Subsequence l1 l2 -> Subsequence l1 (x :: l2)
| Subsequence_keep (x : A) (l1 l2 : list A) :
    Subsequence l1 l2 -> Subsequence (x :: l1) (x :: l2).

(** A recommended place with the given [coordinate] and empty texts. *)
Definition place_at (coordinate : option (list number)) : GeminiRecommendedPlace.t :=
  {| GeminiRecommendedPlace.name := EmptyString;
     GeminiRecommendedPlace.description := EmptyString;
     GeminiRecommendedPlace.reasonToStop := EmptyString;
     GeminiRecommendedPlace.coordinate := coordinate;
     GeminiRecommendedPlace.category := None |}.

(** The scenario of the specification: a sentinel, a valid place, a place
    without coordinate. *)
Definition scenario_places : list GeminiRecommendedPlace.t :=
  [place_at (Some [0; 0]%float); place_at (Some [-100; 40]%float); place_at None].

(** ** Segments laid end to end, and the duration estimate of the loop *)

(** The polyline the segments draw when laid end to end: the coordinates of
    the first segment, then those of every later segment without its first
    coordinate (which repeats the boundary). *)
Definition stitch (segs : list RouteSegment.t) : list Coord :=
  match segs with
  | [] => []
  | s :: rest =>
      RouteSegment.coordinates s ++ flat_map (fun s' => tl (RouteSegment.coordinates s')) rest
  end.

Section PathDuration.

Variable Math : MathObject.

Local Open Scope float_scope.

(** The estimated duration of a polyline, accumulated edge by edge from [0]
    the way the loop of [segmentRoute] accumulates it: each edge contributes
    its Haversine length divided by [distanceTimeRatio]. *)
Definition add_edge_duration (distanceTimeRatio : number) (st : number * Coord) (c : Coord)
  : number * Coord :=
  (fst st + haversine Math (fst (snd st)) (snd (snd st)) (fst c) (snd c) / distanceTimeRatio, c).

Definition pathDuration (distanceTimeRatio : number) (polyline : list Coord) : number :=
  match polyline with
  | [] => 0
  | c :: rest => fst (fold_left (add_edge_duration distanceTimeRatio) rest (0, c))
  end.

(** The segment's duration is the estimate for the coordinates it spans, and
    the estimate stays below the target at every coordinate strictly inside
    the segment. *)
Definition first_reach (coords : list Coord) (ratio target : number) (s : RouteSegment.t) : Prop :=
  RouteSegment.duration s =
    pathDuration ratio (slice coords (Z.to_nat (RouteSegment.startIndex s))
                              (Z.to_nat (RouteSegment.endIndex s) + 1)) /\
  forall j, (Z.to_nat (RouteSegment.startIndex s) < j < Z.to_nat (RouteSegment.endIndex s))%nat ->
    geb (pathDuration ratio (slice coords (Z.to_nat (RouteSegment.startIndex s)) (j + 1)))
        target = false.

Record duration_inv (coords : list Coord) (ratio target : number) (i : nat) (st : LoopState)
  : Prop := {
  dinv_start : (currentSegmentStart st < i)%nat;
  dinv_duration :
    accumulatedDuration st = pathDuration ratio (slice coords (currentSegmentStart st) i);
  dinv_below : forall j, (currentSegmentStart st < j < i)%nat ->
    geb (pathDuration ratio (slice coords (currentSegmentStart st) (j + 1))) target = false;
  dinv_segments : Forall (first_reach coords ratio target) (segments st)
}.

End PathDuration.

(** ** The autocomplete component *)

(** While suggestions are listed, the highlighted index is [-1] (none) or
    the index of a listed suggestion. *)
Definition highlight_in_range (st : Autocomplete.state) : Prop :=
  Autocomplete.suggestions st <> [] ->
  (-1 <= Autocomplete.selectedIndex st <
   Z.of_nat (length (Autocomplete.suggestions st)))%Z.

(** Every listed suggestion and every dispatched location satisfies [P]. *)
Definition all_locations (P : Location.t -> Prop) (st : Autocomplete.state) : Prop :=
  forall l, In l (Autocomplete.suggestions st) \/ In l (Autocomplete.dispatched st) -> P l.

Definition san_francisco : Location.t :=
  {| Location.id := "place.1";
     Location.place_name := "San Francisco, California, United States";
     Location.center := [-122.42; 37.77]%float |}.

(** The user focuses the field, types, the search answers, and the first
    suggestion is chosen from the keyboard. *)
Definition selecting_session : list Autocomplete.event :=
  [ Autocomplete.Focus; Autocomplete.Typed "San"; Autocomplete.InputStarted;
    Autocomplete.InputResolved [san_francisco];
    Autocomplete.Keydown "ArrowDown"; Autocomplete.Keydown "Enter" ].

Definition after_selecting_session : Autocomplete.state :=
  {| Autocomplete.value := "San Francisco, California, United States";
     Autocomplete.suggestions := [];
     Autocomplete.loading := false;
     Autocomplete.focused := true;
     Autocomplete.selectedIndex := 0;
     Autocomplete.dispatched := [san_francisco] |}.

(** ** Strings *)

(** The string without its first [n] characters. *)
Fixpoint drop (n : nat) (s : string) : string :=
  match n, s with
  | O, _ => s
  | S _, EmptyString => EmptyString
  | S k, String _ rest => drop k rest
  end.

(** ** Segment places *)

(** An entry of the segment map that holds exactly one place, of
    importance 1. *)
Definition one_highlight (entry : nat * list Place.t) : Prop :=
  exists poi, snd entry = [poi] /\ Place.importance poi = 1%float.

(** The segment has a start coordinate. *)
Definition has_start (s : RouteSegment.t) : Prop :=
  RouteSegment.startCoordinate s <> None.

(** A segment reduced to its start coordinate. *)
Definition leg (start : option Coord) : RouteSegment.t :=
  {| RouteSegment.startIndex := 0;
     RouteSegment.endIndex := 1;
     RouteSegment.startCoordinate := start;
     RouteSegment.endCoordinate := None;
     RouteSegment.distance := 0;
     RouteSegment.duration := 0;
     RouteSegment.coordinates := [] |}.

(** * Properties *)

(** ** Lists, slices and loops *)

Lemma array_get_last {A} (l : list A) :
  array_get l (Z.of_nat (length l) - 1) = nth_error l (length l - 1).
Proof.
  destruct l as [|x l]; [reflexivity|].
  unfold array_get. cbn [length]. rewrite Nat.sub_succ, Nat.sub_0_r.
  replace (Z.of_nat (S (length l)) - 1)%Z with (Z.of_nat (length l)) by lia.
  destruct (Z.ltb_spec (Z.of_nat (length l)) 0); [lia|].
  now rewrite Nat2Z.id.
Qed.

Lemma firstn_snoc {A} (l : list A) (n : nat) (x : A) :
  nth_error l n = Some x -> firstn (S n) l = firstn n l ++ [x].
Proof.
  revert n; induction l as [|y l IH]; intros [|n] H; simpl in *; try discriminate.
  - now inversion H.
  - now rewrite (IH n H).
Qed.

Lemma slice_snoc {A} (l : list A) (start i : nat) (x : A) :
  start <= i -> nth_error l i = Some x ->
  slice l start (i + 1) = slice l start i ++ [x].
Proof.
  intros Hle Hx. unfold slice.
  replace (i + 1 - start) with (S (i - start)) by lia.
  apply firstn_snoc. rewrite nth_error_skipn.
  now replace (start + (i - start)) with i by lia.
Qed.

Lemma slice_length {A} (l : list A) (start stop : nat) :
  stop <= length l -> length (slice l start stop) = stop - start.
Proof.
  intros H. unfold slice. rewrite length_firstn, length_skipn. lia.
Qed.

Lemma slice_nth_error {A} (l : list A) (start stop k : nat) :
  k < stop - start -> nth_error (slice l start stop) k = nth_error l (start + k).
Proof.
  intros H. unfold slice. rewrite nth_error_firstn.
  destruct (Nat.ltb_spec k (stop - start)); [|lia]. apply nth_error_skipn.
Qed.

Lemma for_each_app {S} (body : nat -> S -> Completion S) (l1 l2 : list nat) (st : S) :
  for_each body (l1 ++ l2) st = st' <- for_each body l1 st ;; for_each body l2 st'.
Proof.
  revert st; induction l1 as [|i l1 IH]; intros st; simpl; [reflexivity|].
  destruct (body i st); simpl; auto.
Qed.

(** A counting loop whose body preserves an invariant completes normally and
    establishes the invariant at the exit index. *)
Lemma for_each_invariant {S} (body : nat -> S -> Completion S)
    (I : nat -> S -> Prop) (n from : nat) (st : S) :
  (forall i s, from <= i < from + n -> I i s ->
     exists s', body i s = Normal s' /\ I (Datatypes.S i) s') ->
  I from st ->
  exists st', for_each body (seq from n) st = Normal st' /\ I (from + n) st'.
Proof.
  revert from st; induction n as [|n IH]; intros from st Hbody Hinit; simpl.
  - exists st. now rewrite Nat.add_0_r.
  - destruct (Hbody from st ltac:(lia) Hinit) as (s' & -> & Hs'). simpl.
    destruct (IH (Datatypes.S from) s') as (st' & Hrun & Hst'); auto.
    + intros i s Hi. apply Hbody. lia.
    + exists st'. split; [exact Hrun|]. now replace (from + Datatypes.S n) with (Datatypes.S from + n) by lia.
Qed.

(** ** Tilings *)

Lemma chained_snoc (from to : Z) (segs : list RouteSegment.t) (s : RouteSegment.t) :
  chained from segs to -> RouteSegment.startIndex s = to ->
  chained from (segs ++ [s]) (RouteSegment.endIndex s).
Proof.
  revert from; induction segs as [|x segs IH]; simpl; intros from H Hs.
  - subst. auto.
  - destruct H as [Hx H]. split; auto.
Qed.

Lemma chained_adjacent (from to : Z) (segs : list RouteSegment.t) (i : nat)
    (s s' : RouteSegment.t) :
  chained from segs to ->
  nth_error segs i = Some s -> nth_error segs (S i) = Some s' ->
  RouteSegment.endIndex s = RouteSegment.startIndex s'.
Proof.
  revert from i; induction segs as [|x segs IH]; intros from [|i] H Hs Hs';
    simpl in *; try discriminate.
  - injection Hs as <-. destruct segs as [|y segs]; [discriminate|].
    simpl in Hs'. injection Hs' as <-. simpl in H. symmetry. tauto.
  - destruct H as [_ H]. eapply IH; eauto.
Qed.

Lemma chained_first (from to : Z) (segs : list RouteSegment.t) (s : RouteSegment.t) :
  chained from segs to -> nth_error segs 0 = Some s -> RouteSegment.startIndex s = from.
Proof.
  destruct segs as [|x segs]; simpl; [discriminate|].
  intros [H _] [= <-]. exact H.
Qed.

Lemma chained_last (from to : Z) (segs : list RouteSegment.t) (s : RouteSegment.t) :
  chained from segs to -> nth_error segs (length segs - 1) = Some s ->
  RouteSegment.endIndex s = to.
Proof.
  revert from; induction segs as [|x segs IH]; simpl; intros from H Hs; [discriminate|].
  destruct H as [_ H]. destruct segs as [|y segs].
  - simpl in *. injection Hs as <-. exact H.
  - apply (IH _ H). simpl in *. now rewrite Nat.sub_0_r in *.
Qed.

(** In a tiling by segments of positive extent, every segment but the last
    ends before the end of the tiled range. *)
Lemma chained_inner_end (len : nat) (segs : list RouteSegment.t) (from to : Z) (i : nat)
    (s : RouteSegment.t) :
  chained from segs to -> Forall (indices_ok len) segs ->
  nth_error segs i = Some s -> i + 1 < length segs ->
  (RouteSegment.endIndex s < Z.of_nat len - 1)%Z.
Proof.
  intros Hc Hall Hs Hi.
  destruct (nth_error segs (S i)) as [s'|] eqn:Hs'.
  - pose proof (chained_adjacent _ _ _ _ _ _ Hc Hs Hs') as Hadj.
    rewrite Forall_forall in Hall.
    pose proof (Hall s' (nth_error_In _ _ Hs')) as [H1 H2]. lia.
  - apply nth_error_None in Hs'. lia.
Qed.

(** ** Floating-point facts

    Derived from the specification of the primitive operations
    ([Prim2SF] and the [SF] functions of the standard library). *)

(** The specification of the float operations is written with the integer
    operations of the core library; [lia] wants the standard ones. *)
Ltac std_Z :=
  change IntDef.Z.max with Z.max in *;
  change IntDef.Z.min with Z.min in *;
  change IntDef.Z.add with Z.add in *;
  change IntDef.Z.sub with Z.sub in *;
  change IntDef.Z.mul with Z.mul in *;
  change IntDef.Z.opp with Z.opp in *.

Section FloatSigns.

Local Open Scope float_scope.

Lemma binary_round_aux_opp (s : bool) (m e : Z) (l : location) :
  SFopp (binary_round_aux prec emax s m e l) = binary_round_aux prec emax (negb s) m e l.
Proof.
  unfold binary_round_aux.
  destruct (shr_fexp prec emax m e l) as [mrs' e'].
  destruct (shr_fexp prec emax _ e' loc_Exact) as [mrs'' e''].
  destruct (shr_m mrs''); try reflexivity.
  destruct (e'' <=? emax - prec)%Z; reflexivity.
Qed.

Lemma SFmul_opp_l (X Y : spec_float) :
  SF64mul (SFopp X) Y = SFopp (SF64mul X Y).
Proof.
  destruct X as [sx|sx| |sx mx ex], Y as [sy|sy| |sy my ey]; simpl; try reflexivity;
    try (destruct sx, sy; reflexivity).
  rewrite binary_round_aux_opp. destruct sx, sy; reflexivity.
Qed.

Lemma SFmul_comm (X Y : spec_float) : SF64mul X Y = SF64mul Y X.
Proof.
  destruct X as [sx|sx| |sx mx ex], Y as [sy|sy| |sy my ey]; simpl; try reflexivity;
    try (destruct sx, sy; reflexivity).
  now rewrite xorb_comm, Pos.mul_comm, Z.add_comm.
Qed.

Lemma SFdiv_opp_l (X Y : spec_float) :
  SF64div (SFopp X) Y = SFopp (SF64div X Y).
Proof.
  destruct X as [sx|sx| |sx mx ex], Y as [sy|sy| |sy my ey]; simpl; try reflexivity;
    try (destruct sx, sy; reflexivity).
  destruct (SFdiv_core_binary prec emax (Z.pos mx) ex (Z.pos my) ey) as [[mz ez] lz].
  rewrite binary_round_aux_opp. destruct sx, sy; reflexivity.
Qed.

Lemma SFopp_involutive (X : spec_float) : SFopp (SFopp X) = X.
Proof. destruct X as [s|s| |s m e]; simpl; try rewrite negb_involutive; reflexivity. Qed.

Lemma mul_opp_l (x y : float) : (- x) * y = - (x * y).
Proof.
  apply Prim2SF_inj. rewrite mul_spec, !opp_spec, mul_spec. apply SFmul_opp_l.
Qed.

Lemma mul_comm (x y : float) : x * y = y * x.
Proof. apply Prim2SF_inj. rewrite !mul_spec. apply SFmul_comm. Qed.

Lemma div_opp_l (x y : float) : (- x) / y = - (x / y).
Proof.
  apply Prim2SF_inj. rewrite div_spec, !opp_spec, div_spec. apply SFdiv_opp_l.
Qed.

Lemma opp_involutive (x : float) : - - x = x.
Proof. apply Prim2SF_inj. rewrite !opp_spec. apply SFopp_involutive. Qed.

Lemma mul_opp_r (x y : float) : x * (- y) = - (x * y).
Proof. now rewrite mul_comm, mul_opp_l, mul_comm. Qed.

Lemma mul_opp_opp (x y : float) : (- x) * (- y) = x * y.
Proof. now rewrite mul_opp_l, mul_opp_r, opp_involutive. Qed.

Lemma binary_round_opp (s : bool) (m : positive) (e : Z) :
  SFopp (binary_round prec emax s m e) = binary_round prec emax (negb s) m e.
Proof.
  unfold binary_round. destruct (shl_align _ _ _) as [mz ez]. apply binary_round_aux_opp.
Qed.

Lemma SFsub_swap (X Y : spec_float) :
  SF64sub Y X = SFopp (SF64sub X Y) \/
  (SF64sub X Y = S754_zero false /\ SF64sub Y X = S754_zero false).
Proof.
  destruct X as [sx|sx| |sx mx ex], Y as [sy|sy| |sy my ey]; simpl;
    try (left; reflexivity); try (destruct sx, sy; simpl; auto; fail).
  change (IntDef.Z.min ey ex) with (Z.min ey ex).
  change (IntDef.Z.min ex ey) with (Z.min ex ey).
  rewrite (Z.min_comm ey ex).
  set (a := cond_Zopp sx _). set (b := cond_Zopp sy _).
  replace (b - a)%Z with (- (a - b))%Z by lia.
  destruct (a - b)%Z as [|p|p]; simpl.
  - right. split; reflexivity.
  - left. now rewrite binary_round_opp.
  - left. now rewrite binary_round_opp.
Qed.

Lemma sub_swap (x y : float) : y - x = - (x - y) \/ (x - y = 0 /\ y - x = 0).
Proof.
  destruct (SFsub_swap (Prim2SF x) (Prim2SF y)) as [H|[H1 H2]].
  - left. apply Prim2SF_inj. now rewrite opp_spec, !sub_spec.
  - right. split; apply Prim2SF_inj; rewrite sub_spec; assumption.
Qed.

Lemma binary_round_aux_cases (s : bool) (m e : Z) (l : location) :
  binary_round_aux prec emax s m e l = S754_zero s \/
  binary_round_aux prec emax s m e l = S754_infinity s \/
  binary_round_aux prec emax s m e l = S754_nan \/
  exists m' e', binary_round_aux prec emax s m e l = S754_finite s m' e'.
Proof.
  unfold binary_round_aux.
  destruct (shr_fexp prec emax m e l) as [mrs' e'].
  destruct (shr_fexp prec emax _ e' loc_Exact) as [mrs'' e''].
  destruct (shr_m mrs'') as [|p|p].
  - now left.
  - destruct (e'' <=? emax - prec)%Z.
    + right; right; right. now exists p, e''.
    + right; now left.
  - right; right; now left.
Qed.

Lemma ltb_zero_spec (x : float) : (x <? 0) = SFltb (Prim2SF x) (S754_zero false).
Proof. now rewrite ltb_spec. Qed.

Lemma sqrt_not_negative (a : float) : (sqrt a <? 0) = false.
Proof.
  rewrite ltb_zero_spec, sqrt_spec. unfold SF64sqrt, SFsqrt.
  destruct (Prim2SF a) as [s|[|]| |[|] m e]; try reflexivity.
  destruct (SFsqrt_core_binary prec emax (Z.pos m) e) as [[mz ez] lz].
  destruct (binary_round_aux_cases false mz ez lz) as [->|[->|[->|(m' & e' & ->)]]];
    reflexivity.
Qed.

Lemma sqrt_neg_zero (a : float) : sqrt a = neg_zero -> a = neg_zero.
Proof.
  intros H. apply Prim2SF_inj. apply (f_equal Prim2SF) in H.
  rewrite sqrt_spec in H. change (Prim2SF neg_zero) with (S754_zero true) in *.
  unfold SF64sqrt, SFsqrt in H.
  destruct (Prim2SF a) as [s|[|]| |[|] m e]; try discriminate H; try exact H.
  destruct (SFsqrt_core_binary prec emax (Z.pos m) e) as [[mz ez] lz].
  destruct (binary_round_aux_cases false mz ez lz) as [E|[E|[E|(m' & e' & E)]]];
    rewrite E in H; discriminate H.
Qed.

Lemma mul_positive_not_negative (k t : float) :
  (0 <? k) = true -> (t <? 0) = false -> (k * t <? 0) = false.
Proof.
  rewrite !ltb_zero_spec, ltb_spec, mul_spec.
  change (Prim2SF 0) with (S754_zero false).
  intros Hk Ht. unfold SF64mul, SFmul.
  destruct (Prim2SF k) as [sk|[|]| |[|] mk ek]; try discriminate Hk;
    destruct (Prim2SF t) as [s|[|]| |[|] m e]; try reflexivity; try discriminate Ht.
  cbn [xorb].
  destruct (binary_round_aux_cases false (Z.pos (mk * m)) (ek + e) loc_Exact)
    as [->|[->|[->|(m' & e' & ->)]]]; reflexivity.
Qed.

Lemma eqb_zero_cases (y : float) : (y =? 0) = true -> y = 0 \/ y = neg_zero.
Proof.
  rewrite eqb_spec. change (Prim2SF 0) with (S754_zero false).
  unfold SFeqb, SFcompare. intros H.
  destruct (Prim2SF y) as [[|]|[|]| |[|] m e] eqn:E; try discriminate H.
  - right. now apply Prim2SF_inj.
  - left. now apply Prim2SF_inj.
Qed.

End FloatSigns.

Section FloatBounds.

Local Open Scope Z_scope.

Lemma finite_le_weaken (E E' : Z) (X : spec_float) :
  E <= E' -> finite_le E X -> finite_le E' X.
Proof. destruct X; simpl; auto; lia. Qed.

Lemma digits2_pos_size (p : positive) : digits2_pos p = Pos.size p.
Proof. induction p; simpl; congruence. Qed.

Lemma pos_lt_pow2_size (p : positive) : Z.pos p < 2 ^ Z.pos (Pos.size p).
Proof.
  pose proof (Pos.size_gt p) as H.
  apply Pos2Z.pos_lt_pos in H. now rewrite Pos2Z.inj_pow in H.
Qed.

Lemma Zdigits2_bound (m K : Z) : 0 <= K -> 0 <= m < 2 ^ K -> Zdigits2 m <= K.
Proof.
  intros HK [H0 Hm]. destruct m as [|p|p]; simpl; try lia.
  rewrite digits2_pos_size.
  pose proof (Pos.size_le p) as H. apply Pos2Z.pos_le_pos in H.
  rewrite Pos2Z.inj_pow in H. change (Z.pos p~0) with (2 * Z.pos p) in H.
  assert (2 ^ Z.pos (Pos.size p) < 2 ^ (K + 1)).
  { replace (K + 1) with (Z.succ K) by lia. rewrite Z.pow_succ_r by lia. lia. }
  apply Z.pow_lt_mono_r_iff in H1; lia.
Qed.

Lemma valid_mantissa (s : bool) (m : positive) (e : Z) :
  valid_binary (S754_finite s m e) = true -> Z.pos m < 2 ^ 53.
Proof.
  unfold SpecFloat.valid_binary, bounded, canonical_mantissa, fexp. intros H.
  apply andb_true_iff in H. destruct H as [H _]. apply Z.eqb_eq in H.
  rewrite digits2_pos_size in H. unfold prec in H. std_Z.
  apply Z.lt_le_trans with (1 := pos_lt_pow2_size m).
  apply Z.pow_le_mono_r; lia.
Qed.

Lemma Prim2SF_mantissa (x : float) (s : bool) (m : positive) (e : Z) :
  Prim2SF x = S754_finite s m e -> Z.pos m < 2 ^ 53.
Proof.
  intros H. apply (valid_mantissa s m e). rewrite <- H. apply Prim2SF_valid.
Qed.

Lemma shr_1_bounds (mrs : shr_record) :
  0 <= shr_m mrs -> 0 <= shr_m (shr_1 mrs) <= shr_m mrs.
Proof.
  destruct mrs as [m r s]. simpl. destruct m as [|[p|p|]|p]; simpl; lia.
Qed.

Lemma iter_shr_1_bounds (p : positive) (mrs : shr_record) :
  0 <= shr_m mrs -> 0 <= shr_m (iter_pos shr_1 p mrs) <= shr_m mrs.
Proof.
  revert mrs; induction p as [p IH|p IH|]; intros mrs H; simpl.
  - pose proof (shr_1_bounds mrs H).
    pose proof (IH (shr_1 mrs) ltac:(lia)).
    pose proof (IH (iter_pos shr_1 p (shr_1 mrs)) ltac:(lia)). lia.
  - pose proof (IH mrs H).
    pose proof (IH (iter_pos shr_1 p mrs) ltac:(lia)). lia.
  - apply shr_1_bounds, H.
Qed.

Lemma shr_fexp_bounds (m e : Z) (l : location) :
  0 <= m ->
  0 <= shr_m (fst (shr_fexp prec emax m e l)) <= m /\
  snd (shr_fexp prec emax m e l) = Z.max e (fexp prec emax (Zdigits2 m + e)).
Proof.
  intros Hm. unfold shr_fexp, shr.
  assert (Hloc : shr_m (shr_record_of_loc m l) = m) by (destruct l as [|[]]; reflexivity).
  destruct (fexp prec emax (Zdigits2 m + e) - e) as [|p|p] eqn:E; simpl.
  - rewrite Hloc. lia.
  - pose proof (iter_shr_1_bounds p (shr_record_of_loc m l)) as H.
    rewrite Hloc in H. lia.
  - rewrite Hloc. lia.
Qed.

Lemma round_nearest_even_bounds (m : Z) (l : location) :
  0 <= m -> 0 <= round_nearest_even m l <= m + 1.
Proof.
  intros H. destruct l as [|[]]; simpl; try lia. destruct (Z.even m); lia.
Qed.

(** Rounding a non-negative mantissa below [2 ^ K] at a low enough exponent
    does not overflow. *)
Lemma binary_round_aux_finite (s : bool) (m e : Z) (l : location) (K : Z) :
  0 <= K -> 0 <= m < 2 ^ K ->
  Z.max e emin + 2 * K + 1 <= emax - prec ->
  finite_le (Z.max e emin + 2 * K + 1) (binary_round_aux prec emax s m e l).
Proof.
  intros HK Hm Hbound. unfold binary_round_aux.
  pose proof (shr_fexp_bounds m e l ltac:(lia)) as [Hm1 He1].
  destruct (shr_fexp prec emax m e l) as [mrs' e1]. simpl in Hm1, He1.
  pose proof (round_nearest_even_bounds (shr_m mrs') (loc_of_shr_record mrs') ltac:(lia)) as Hr.
  set (mr := round_nearest_even (shr_m mrs') (loc_of_shr_record mrs')) in *.
  pose proof (shr_fexp_bounds mr e1 loc_Exact ltac:(lia)) as [Hm2 He2].
  destruct (shr_fexp prec emax mr e1 loc_Exact) as [mrs'' e2]. simpl in Hm2, He2.
  assert (Hd : Zdigits2 m <= K) by (apply Zdigits2_bound; lia).
  assert (Hdr : Zdigits2 mr <= K + 1).
  { apply Zdigits2_bound; [lia|].
    replace (K + 1) with (Z.succ K) by lia. rewrite Z.pow_succ_r by lia. lia. }
  unfold fexp in He1, He2. unfold emin, prec, emax in *.
  std_Z.
  assert (He : e2 <= Z.max e (3 - 1024 - 53) + 2 * K + 1).
  { clearbody mr. clear Hm Hm1 Hr Hm2 Hbound. lia. }
  destruct (shr_m mrs'') as [|p|p]; [exact I| |exfalso; clear - Hm2; lia].
  destruct (Z.leb_spec e2 (1024 - 53)) as [Hle|Hgt]; [exact He|].
  exfalso. clear - He Hbound Hgt. lia.
Qed.

Lemma mul_finite_le (x y : float) (Ex Ey : Z) :
  finite_le Ex (Prim2SF x) -> finite_le Ey (Prim2SF y) ->
  Z.max (Ex + Ey) emin + 213 <= emax - prec ->
  finite_le (Z.max (Ex + Ey) emin + 213) (Prim2SF (x * y)).
Proof.
  intros Hx Hy Hb. rewrite mul_spec. unfold SF64mul, SFmul.
  destruct (Prim2SF x) as [sx|sx| |sx mx ex] eqn:Ex';
    destruct (Prim2SF y) as [sy|sy| |sy my ey] eqn:Ey'; simpl in Hx, Hy; try easy.
  pose proof (Prim2SF_mantissa x sx mx ex Ex') as Hmx.
  pose proof (Prim2SF_mantissa y sy my ey Ey') as Hmy.
  apply finite_le_weaken with (E := Z.max (ex + ey) emin + 2 * 106 + 1);
    [lia|].
  apply binary_round_aux_finite; try lia.
  rewrite Pos2Z.inj_mul. change (2 ^ 106) with (2 ^ 53 * 2 ^ 53). nia.
Qed.

Lemma SFdiv_core_binary_bounds (mx my : positive) (ex ey : Z) :
  Z.pos mx < 2 ^ 53 -> Z.pos my < 2 ^ 53 ->
  0 <= fst (fst (SFdiv_core_binary prec emax (Z.pos mx) ex (Z.pos my) ey)) < 2 ^ 158 /\
  snd (fst (SFdiv_core_binary prec emax (Z.pos mx) ex (Z.pos my) ey)) <= ex - ey.
Proof.
  intros Hmx Hmy. unfold SFdiv_core_binary. cbv zeta.
  assert (Hd1 : 1 <= Zdigits2 (Z.pos mx)) by (simpl; lia).
  assert (Hd2 : Zdigits2 (Z.pos my) <= 53) by (apply Zdigits2_bound; lia).
  set (d1 := Zdigits2 (Z.pos mx)) in *. set (d2 := Zdigits2 (Z.pos my)) in *.
  set (e' := IntDef.Z.min (fexp prec emax (IntDef.Z.sub (IntDef.Z.add d1 ex) (IntDef.Z.add d2 ey)))
                          (IntDef.Z.sub ex ey)).
  assert (He' : e' <= ex - ey /\ 0 <= ex - ey - e' <= 105).
  { subst e'. unfold fexp, SpecFloat.emin, prec, emax. std_Z. clearbody d1 d2. clear Hmx Hmy. lia. }
  set (s := IntDef.Z.sub (IntDef.Z.sub ex ey) e').
  assert (Hs : 0 <= s <= 105) by (subst s; std_Z; lia).
  set (m' := match s with Z.pos _ => Z.shiftl (Z.pos mx) s | 0 => Z.pos mx | Z.neg _ => 0 end).
  assert (Hm' : 0 <= m' < 2 ^ 158).
  { assert (Hpow : 0 < 2 ^ s <= 2 ^ 105).
    { split; [apply Z.pow_pos_nonneg; lia|apply Z.pow_le_mono_r; lia]. }
    assert (Hshift : 0 <= Z.pos mx * 2 ^ s < 2 ^ 158).
    { change (2 ^ 158) with (2 ^ 53 * 2 ^ 105). clearbody s. nia. }
    subst m'. destruct s as [|p|p] eqn:Es.
    - change (2 ^ 158) with (2 ^ 53 * 2 ^ 105). lia.
    - rewrite Z.shiftl_mul_pow2 by lia. exact Hshift.
    - lia. }
  clearbody m' e'.
  pose proof (Z_div_mod m' (Z.pos my) ltac:(lia)) as Hdiv.
  destruct (Z.div_eucl m' (Z.pos my)) as [q r]. simpl.
  destruct Hdiv as [Hq Hr]. split; [|lia].
  assert (0 <= q) by nia. assert (q <= m') by nia. lia.
Qed.

Lemma div_finite_le (x y : float) (Ex : Z) (sy : bool) (my : positive) (ey : Z) :
  finite_le Ex (Prim2SF x) -> Prim2SF y = S754_finite sy my ey ->
  Z.max (Ex - ey) emin + 317 <= emax - prec ->
  finite_le (Z.max (Ex - ey) emin + 317) (Prim2SF (x / y)).
Proof.
  intros Hx Hy Hb. rewrite div_spec, Hy. unfold SF64div, SFdiv.
  destruct (Prim2SF x) as [sx|sx| |sx mx ex] eqn:Ex'; simpl in Hx; try easy.
  pose proof (Prim2SF_mantissa x sx mx ex Ex') as Hmx.
  pose proof (Prim2SF_mantissa y sy my ey Hy) as Hmy.
  pose proof (SFdiv_core_binary_bounds mx my ex ey Hmx Hmy) as [Hq He].
  destruct (SFdiv_core_binary prec emax (Z.pos mx) ex (Z.pos my) ey) as [[mz ez] lz].
  simpl in Hq, He.
  apply finite_le_weaken with (E := Z.max ez emin + 2 * 158 + 1); [lia|].
  apply binary_round_aux_finite; lia.
Qed.

Lemma range_exponent (b x : float) (mb : positive) (eb : Z) :
  Prim2SF b = S754_finite false mb eb ->
  (- b <=? x)%float = true -> (x <=? b)%float = true ->
  finite_le eb (Prim2SF x).
Proof.
  rewrite !leb_spec, opp_spec. intros ->. simpl SFopp.
  unfold SFleb, SFcompare.
  destruct (Prim2SF x) as [s|[|]| |[|] m e]; simpl; try easy.
  - intros H _. destruct (Z.compare_spec eb e); first [lia|discriminate H].
  - intros _ H. destruct (Z.compare_spec e eb); first [lia|discriminate H].
Qed.

Lemma finite_le_is_finite (E : Z) (x : float) :
  finite_le E (Prim2SF x) -> is_finite x = true.
Proof.
  unfold is_finite, is_nan, is_infinity. rewrite !eqb_spec, abs_spec.
  change (Prim2SF infinity) with (S754_infinity false).
  unfold SFeqb, SFcompare.
  destruct (Prim2SF x) as [s|s| |s m e]; simpl; try easy.
  intros _. rewrite Z.compare_refl, Pos.compare_cont_refl. now destruct s.
Qed.

Lemma sub_self (E : Z) (x : float) : finite_le E (Prim2SF x) -> (x - x)%float = 0%float.
Proof.
  intros H. apply Prim2SF_inj. rewrite sub_spec.
  change (Prim2SF 0) with (S754_zero false). unfold SF64sub, SFsub.
  destruct (Prim2SF x) as [[|]|s| |s m e]; simpl in H; try easy.
  std_Z. now rewrite Z.sub_diag.
Qed.

Lemma finite_mul_zero (E : Z) (p : float) :
  finite_le E (Prim2SF p) -> (p * 0)%float = 0%float \/ (p * 0)%float = neg_zero.
Proof.
  intros H.
  assert (Hp : Prim2SF (p * 0) = S754_zero false \/ Prim2SF (p * 0) = S754_zero true).
  { rewrite mul_spec. change (Prim2SF 0) with (S754_zero false).
    destruct (Prim2SF p) as [[|]|s| |[|] m e]; simpl in H; try easy; simpl; auto. }
  destruct Hp as [Hp|Hp]; [left|right]; apply Prim2SF_inj; exact Hp.
Qed.

End FloatBounds.

(** ** The reference [Math] meets the assumptions *)

Section RefMathFacts.

Local Open Scope float_scope.

Lemma RefMath_special_values : ecma_special_values RefMath.Math.
Proof.
  constructor; simpl; try reflexivity.
  intros x Hx. unfold RefMath.atan2. now rewrite Hx.
Qed.

Lemma RefMath_sin_odd : sin_odd RefMath.Math.
Proof.
  intros x. simpl. unfold RefMath.sin.
  now rewrite mul_opp_opp, mul_opp_l.
Qed.

Lemma RefMath_cos_unit_range : cos_unit_range RefMath.Math.
Proof.
  intros x _. simpl. unfold RefMath.cos. cbv zeta.
  destruct (_ && _) eqn:E.
  - now apply andb_true_iff in E.
  - split; reflexivity.
Qed.

Lemma is_negative_zero (y : float) :
  (y <? 0) = false -> RefMath.is_negative y = true -> y = neg_zero.
Proof.
  unfold RefMath.is_negative. intros -> H. simpl in H.
  apply andb_true_iff in H. destruct H as [H0 H1].
  destruct (eqb_zero_cases y H0) as [->| ->]; [discriminate H1|reflexivity].
Qed.

Lemma clamp0_not_negative (r : float) : (RefMath.clamp0 r <? 0) = false.
Proof. unfold RefMath.clamp0. destruct (r <? 0) eqn:E; [reflexivity|exact E]. Qed.

Lemma RefMath_atan2_upper_half : atan2_upper_half RefMath.Math.
Proof.
  intros y x Hy Hzero. simpl. unfold RefMath.atan2. cbv zeta.
  destruct ((y =? 0) && (0 <? x)) eqn:C1; [exact Hy|].
  destruct (is_nan y || is_nan x); [reflexivity|].
  destruct (RefMath.is_negative y) eqn:Hn.
  - pose proof (is_negative_zero y Hy Hn) as ->.
    rewrite (Hzero eq_refl) in C1. discriminate C1.
  - destruct (abs y =? 0); [destruct (RefMath.is_negative x); reflexivity|].
    destruct (x =? 0); [reflexivity|].
    destruct (0 <? x); apply clamp0_not_negative.
Qed.

End RefMathFacts.

(** ** The Haversine formula *)

Section HaversineSpecialValues.

Variable Math : MathObject.
Hypothesis special : ecma_special_values Math.

Local Open Scope float_scope.

(** When all four angles handed to [Math] round to [+0], the distance is [+0]. *)
Lemma haversine_zero_angles (lon1 lat1 lon2 lat2 : number) :
  lat1 * Math_PI / 180 = 0 ->
  lat2 * Math_PI / 180 = 0 ->
  (lat2 - lat1) * Math_PI / 180 / 2 = 0 ->
  (lon2 - lon1) * Math_PI / 180 / 2 = 0 ->
  haversine Math lon1 lat1 lon2 lat2 = 0.
Proof.
  intros H1 H2 H3 H4. unfold haversine. cbv zeta.
  rewrite H1, H2, H3, H4.
  rewrite (sin_pos_zero Math special), (cos_pos_zero Math special).
  change (Math_sqrt (0 * 0 + 1 * 1 * 0 * 0)) with 0.
  change (Math_sqrt (1 - (0 * 0 + 1 * 1 * 0 * 0))) with 1.
  now rewrite (atan2_pos_zero Math special 1).
Qed.

(** A latitude difference of [5e-324] degrees (the least positive number) is
    lost in the conversion to radians. *)
Lemma haversine_underflow : haversine Math 0 0 0 5e-324 = 0.
Proof. apply haversine_zero_angles; reflexivity. Qed.

Lemma coincident_route_segments :
  segmentRoute Math (Some coincident_route) 5 =
  Normal [ {| RouteSegment.startIndex := 0;
              RouteSegment.endIndex := 1;
              RouteSegment.startCoordinate := Some (-78.5, 0);
              RouteSegment.endCoordinate := Some (-78.5, 0);
              RouteSegment.distance := 0;
              RouteSegment.duration := 0;
              RouteSegment.coordinates := [(-78.5, 0); (-78.5, 0)] |} ].
Proof.
  unfold segmentRoute, coincident_route. simpl.
  unfold loop_body, calculateDistance. simpl.
  rewrite haversine_zero_angles by reflexivity.
  reflexivity.
Qed.

End HaversineSpecialValues.

Section HaversineDiagonal.

Variable Math : MathObject.
Hypothesis special : ecma_special_values Math.
Hypothesis unit_range : cos_unit_range Math.

Local Open Scope float_scope.

Lemma radians_finite (degrees : number) :
  finite_le (-45) (Prim2SF degrees) ->
  is_finite (degrees * Math_PI / 180) = true.
Proof.
  intros Hd.
  pose proof (mul_finite_le degrees Math_PI (-45) (-51) Hd) as Hm.
  specialize (Hm ltac:(vm_compute; discriminate) ltac:(vm_compute; discriminate)).
  eapply finite_le_is_finite.
  eapply (div_finite_le _ 180 _ false 6333186975989760 (-45) Hm eq_refl).
  vm_compute. discriminate.
Qed.

Lemma haversine_self (c : Coord) :
  in_range c = true -> haversine Math (fst c) (snd c) (fst c) (snd c) = 0.
Proof.
  unfold in_range. rewrite !andb_true_iff. intros [[[H1 H2] H3] H4].
  pose proof (range_exponent 180 (fst c) 6333186975989760 (-45) eq_refl H1 H2) as Hlon.
  pose proof (range_exponent 90 (snd c) 6333186975989760 (-46) eq_refl H3 H4) as Hlat.
  unfold haversine. cbv zeta.
  rewrite (sub_self _ _ Hlon), (sub_self _ _ Hlat).
  change (0 * Math_PI / 180 / 2) with 0.
  rewrite (sin_pos_zero Math special).
  destruct (unit_range (snd c * Math_PI / 180)) as [Hc1 Hc2].
  { apply radians_finite. apply finite_le_weaken with (2 := Hlat). lia. }
  set (cosine := Math_cos Math (snd c * Math_PI / 180)) in *.
  pose proof (range_exponent 1 cosine 4503599627370496 (-52) eq_refl Hc1 Hc2) as Hc.
  pose proof (mul_finite_le cosine cosine (-52) (-52) Hc Hc
                ltac:(vm_compute; discriminate)) as Hcc.
  destruct (finite_mul_zero _ _ Hcc) as [E|E]; rewrite E;
    match goal with
    | |- context [Math_atan2 Math ?y ?x] =>
        let y' := eval vm_compute in y in
        let x' := eval vm_compute in x in
        change y with y'; change x with x'
    end;
    now rewrite (atan2_pos_zero Math special 1).
Qed.

End HaversineDiagonal.

Section HaversineSign.

Variable Math : MathObject.
Hypothesis upper : atan2_upper_half Math.

Local Open Scope float_scope.

Lemma haversine_not_negative (lon1 lat1 lon2 lat2 : number) :
  (haversine Math lon1 lat1 lon2 lat2 <? 0) = false.
Proof.
  unfold haversine. cbv zeta.
  apply mul_positive_not_negative; [reflexivity|].
  apply mul_positive_not_negative; [reflexivity|].
  apply upper.
  - apply sqrt_not_negative.
  - intros H. apply sqrt_neg_zero in H. rewrite H. reflexivity.
Qed.

End HaversineSign.

Section HaversineSymmetry.

Variable Math : MathObject.
Hypothesis odd : sin_odd Math.

Local Open Scope float_scope.

Lemma half_angle_swap (x y : number) :
  half_angle (y - x) = - half_angle (x - y) \/ half_angle (y - x) = half_angle (x - y).
Proof.
  unfold half_angle. destruct (sub_swap x y) as [H|[H1 H2]].
  - left. now rewrite H, mul_opp_l, !div_opp_l.
  - right. now rewrite H1, H2.
Qed.

Lemma sin_square_swap (u v c : number) :
  v = - u \/ v = u ->
  Math_sin Math v * Math_sin Math v = Math_sin Math u * Math_sin Math u /\
  c * Math_sin Math v * Math_sin Math v = c * Math_sin Math u * Math_sin Math u.
Proof.
  intros [->| ->]; [|split; reflexivity].
  rewrite odd. split.
  - apply mul_opp_opp.
  - now rewrite (mul_opp_r c (Math_sin Math u)), mul_opp_opp.
Qed.

Lemma haversine_symmetric (lon1 lat1 lon2 lat2 : number) :
  haversine Math lon1 lat1 lon2 lat2 = haversine Math lon2 lat2 lon1 lat1.
Proof.
  unfold haversine. cbv zeta.
  fold (half_angle (lat2 - lat1)). fold (half_angle (lat1 - lat2)).
  fold (half_angle (lon2 - lon1)). fold (half_angle (lon1 - lon2)).
  destruct (sin_square_swap (half_angle (lat1 - lat2)) (half_angle (lat2 - lat1)) 0
              (half_angle_swap lat1 lat2)) as [-> _].
  destruct (sin_square_swap (half_angle (lon1 - lon2)) (half_angle (lon2 - lon1))
              (Math_cos Math (lat1 * Math_PI / 180) * Math_cos Math (lat2 * Math_PI / 180))
              (half_angle_swap lon1 lon2)) as [_ ->].
  now rewrite (mul_comm (Math_cos Math (lat2 * Math_PI / 180))).
Qed.

End HaversineSymmetry.

(** ** The segmentation loop *)

Section Segmentation.

Variable Math : MathObject.

Local Open Scope float_scope.

Lemma fold_add_edge_snd (rest : list Coord) (st : number * Coord) (p : Coord) :
  nth_error (snd st :: rest) (length rest) = Some p ->
  snd (fold_left (add_edge Math) rest st) = p.
Proof.
  revert st; induction rest as [|c rest IH]; intros st H; simpl in *.
  - now injection H.
  - apply IH. exact H.
Qed.

Lemma pathLength_snoc (l : list Coord) (p q : Coord) :
  nth_error l (length l - 1) = Some p ->
  pathLength Math (l ++ [q]) =
  pathLength Math l + haversine Math (fst p) (snd p) (fst q) (snd q).
Proof.
  destruct l as [|c rest]; simpl; [discriminate|].
  rewrite Nat.sub_0_r. intros H.
  rewrite fold_left_app. simpl.
  now rewrite (fold_add_edge_snd rest (0, c) p H).
Qed.

Lemma loop_inv_init (coords : list Coord) (target : number) :
  (2 <= length coords)%nat ->
  loop_inv Math coords target 1
    {| segments := []; currentSegmentStart := 0;
       accumulatedDuration := 0; accumulatedDistance := 0 |}.
Proof.
  intros Hlen. constructor; simpl; auto; try lia.
  destruct coords as [|c coords]; reflexivity.
Qed.

Lemma loop_body_inv (coords : list Coord) (ratio target : number) (i : nat) (st : LoopState) :
  (1 <= i < length coords)%nat ->
  loop_inv Math coords target i st ->
  exists st', loop_body Math coords ratio target i st = Normal st' /\
              loop_inv Math coords target (S i) st'.
Proof.
  intros Hi [Hstart Hfinal Hne Hchain Hidx Hdur Hseg Hdist].
  destruct (nth_error coords (i - 1)) as [p|] eqn:Hp;
    [|apply nth_error_None in Hp; lia].
  destruct (nth_error coords i) as [q|] eqn:Hq;
    [|apply nth_error_None in Hq; lia].
  assert (Hacc : accumulatedDistance st + haversine Math (fst p) (snd p) (fst q) (snd q) =
                 pathLength Math (slice coords (currentSegmentStart st) (i + 1))).
  { rewrite (slice_snoc coords (currentSegmentStart st) i q) by (auto; lia).
    rewrite (pathLength_snoc _ p q), Hdist; [reflexivity|].
    rewrite slice_length by lia. rewrite slice_nth_error by lia.
    rewrite <- Hp. f_equal. lia. }
  unfold loop_body, calculateDistance. rewrite Hp, Hq. simpl bind. cbv zeta.
  destruct (geb _ target || (Z.of_nat i =? Z.of_nat (length coords) - 1)%Z) eqn:Hcond.
  - eexists. split; [reflexivity|].
    constructor; simpl.
    + lia.
    + intros _. lia.
    + intros _ H. now destruct (segments st).
    + apply chained_snoc with (to := Z.of_nat (currentSegmentStart st)); auto.
    + apply Forall_app. split; [exact Hidx|]. repeat constructor; simpl; lia.
    + apply Forall_app. split; [exact Hdur|]. repeat constructor.
      unfold reached_target; simpl. intros Hlt.
      apply orb_true_iff in Hcond. destruct Hcond as [H|H]; [exact H|].
      apply Z.eqb_eq in H. lia.
    + apply Forall_app. split; [exact Hseg|]. repeat constructor; simpl;
        rewrite ?Nat2Z.id; auto.
    + replace (S i) with (i + 1)%nat by lia.
      unfold slice. replace (i + 1 - i)%nat with 1%nat by lia.
      destruct (skipn i coords) as [|c rest]; reflexivity.
  - eexists. split; [reflexivity|].
    apply orb_false_iff in Hcond. destruct Hcond as [_ Hlast].
    apply Z.eqb_neq in Hlast.
    constructor; simpl; auto.
    + intros H. lia.
    + replace (S i) with (i + 1)%nat by lia. exact Hacc.
Qed.

(** The loop of [segmentRoute] on a route with at least two coordinates. *)
Lemma segmentation_loop (coords : list Coord) (ratio target : number) :
  (2 <= length coords)%nat ->
  exists st,
    for_each (loop_body Math coords ratio target) (seq 1 (length coords - 1))
      {| segments := []; currentSegmentStart := 0;
         accumulatedDuration := 0; accumulatedDistance := 0 |} = Normal st /\
    segments st <> [] /\
    chained 0 (segments st) (Z.of_nat (length coords) - 1) /\
    Forall (indices_ok (length coords)) (segments st) /\
    Forall (reached_target coords target) (segments st) /\
    Forall (segment_of Math coords) (segments st).
Proof.
  intros Hlen.
  destruct (for_each_invariant (loop_body Math coords ratio target)
              (loop_inv Math coords target) (length coords - 1) 1
              {| segments := []; currentSegmentStart := 0;
                 accumulatedDuration := 0; accumulatedDistance := 0 |})
    as (st & Hrun & Hinv).
  - intros i s Hi. apply loop_body_inv. lia.
  - now apply loop_inv_init.
  - exists st. split; [exact Hrun|].
    replace (1 + (length coords - 1))%nat with (length coords) in Hinv by lia.
    destruct Hinv as [Hstart Hfinal Hne Hchain Hidx Hdur Hseg _].
    specialize (Hfinal eq_refl).
    repeat split; auto.
    + apply Hne. lia.
    + replace (Z.of_nat (length coords) - 1)%Z
        with (Z.of_nat (currentSegmentStart st)) by lia.
      exact Hchain.
Qed.

End Segmentation.

(** ** [segmentRoute] *)

Section SegmentRoute.

Variable Math : MathObject.

Local Open Scope float_scope.

Lemma segmentRoute_unfold (data : DirectionsResult.t) (coords : list Coord) (target : number) :
  route_coordinates data = Some coords ->
  segmentRoute Math (Some data) target =
  if DirectionsResult.duration data / 3600 <=? target then
    Normal [ {|
      RouteSegment.startIndex := 0;
      RouteSegment.endIndex := Z.of_nat (length coords) - 1;
      RouteSegment.startCoordinate := array_get coords 0;
      RouteSegment.endCoordinate := array_get coords (Z.of_nat (length coords) - 1);
      RouteSegment.distance := DirectionsResult.distance data;
      RouteSegment.duration := DirectionsResult.duration data;
      RouteSegment.coordinates := coords |} ]
  else
    st <- for_each
            (loop_body Math coords
               (DirectionsResult.distance data / DirectionsResult.duration data)
               (target * 3600))
            (seq 1 (length coords - 1))
            {| segments := []; currentSegmentStart := 0;
               accumulatedDuration := 0; accumulatedDistance := 0 |} ;;
    Normal (segments st).
Proof.
  unfold route_coordinates, segmentRoute.
  destruct (DirectionsResult.geometry data) as [g|]; [|discriminate].
  intros ->. reflexivity.
Qed.

(** A route that fails the guard at the top of [segmentRoute] (a null route,
    no [geometry], or no [coordinates]) yields the empty list. *)
Lemma segmentRoute_malformed (directionsData : option DirectionsResult.t) (target : number) :
  match directionsData with
  | None => True
  | Some data => route_coordinates data = None
  end ->
  segmentRoute Math directionsData target = Normal [].
Proof.
  destruct directionsData as [data|]; [|reflexivity].
  unfold route_coordinates, segmentRoute.
  destruct (DirectionsResult.geometry data) as [g|]; [|reflexivity].
  now intros ->.
Qed.

(** [segmentRoute] never throws: every index the loop reads is in range. *)
Lemma segmentRoute_total (directionsData : option DirectionsResult.t) (target : number) :
  exists segs, segmentRoute Math directionsData target = Normal segs.
Proof.
  destruct directionsData as [data|]; [|eexists; reflexivity].
  destruct (route_coordinates data) as [coords|] eqn:Hc.
  - rewrite (segmentRoute_unfold data coords target Hc).
    destruct (_ <=? target); [eexists; reflexivity|].
    destruct (le_lt_dec 2 (length coords)) as [Hlen|Hlen].
    + destruct (segmentation_loop Math coords
                  (DirectionsResult.distance data / DirectionsResult.duration data)
                  (target * 3600) Hlen) as (st & -> & _).
      eexists; reflexivity.
    + replace (length coords - 1)%nat with 0%nat by lia. eexists; reflexivity.
  - rewrite segmentRoute_malformed; [eexists; reflexivity|exact Hc].
Qed.

End SegmentRoute.

Section SegmentRouteClaims.

Variable Math : MathObject.

Local Open Scope float_scope.

(** C2. On a route with at least two coordinates, for every target, the
    returned segments are contiguous and index-exhaustive: the first segment
    starts at index 0, the last one ends at the index of the last coordinate,
    and every segment ends where its successor starts. *)
Theorem segmentRoute_contiguous_exhaustive
    (data : DirectionsResult.t) (coords : list Coord) (target : number) :
  route_coordinates data = Some coords ->
  (2 <= length coords)%nat ->
  exists segs,
    segmentRoute Math (Some data) target = Normal segs /\
    (exists s, nth_error segs 0 = Some s /\ RouteSegment.startIndex s = 0%Z) /\
    (exists s, nth_error segs (length segs - 1) = Some s /\
               RouteSegment.endIndex s = (Z.of_nat (length coords) - 1)%Z) /\
    (forall i s s', nth_error segs i = Some s -> nth_error segs (S i) = Some s' ->
                    RouteSegment.endIndex s = RouteSegment.startIndex s').
Proof.
  intros Hc Hlen. rewrite (segmentRoute_unfold Math data coords target Hc).
  destruct (_ <=? target).
  - eexists. split; [reflexivity|]. simpl. repeat split.
    + eexists; split; reflexivity.
    + eexists; split; reflexivity.
    + intros i s s' _ H. destruct i; discriminate.
  - destruct (segmentation_loop Math coords
                (DirectionsResult.distance data / DirectionsResult.duration data)
                (target * 3600) Hlen) as (st & -> & Hne & Hchain & _).
    exists (segments st). split; [reflexivity|].
    destruct (nth_error (segments st) 0) as [s0|] eqn:H0;
      [|apply nth_error_None in H0; destruct (segments st); [congruence|simpl in H0; lia]].
    destruct (nth_error (segments st) (length (segments st) - 1)) as [sl|] eqn:Hl;
      [|apply nth_error_None in Hl; destruct (segments st); [congruence|simpl in Hl; lia]].
    repeat split.
    + exists s0. split; [reflexivity|]. eapply chained_first; eauto.
    + exists sl. split; [reflexivity|]. eapply chained_last; eauto.
    + intros i s s'. eapply chained_adjacent; eauto.
Qed.

(** C4, amended. On a route with at least two coordinates, every returned
    segment satisfies [0 <= startIndex < endIndex <= len - 1]. *)
Theorem segmentRoute_indices_in_range
    (data : DirectionsResult.t) (coords : list Coord) (target : number) :
  route_coordinates data = Some coords ->
  (2 <= length coords)%nat ->
  exists segs,
    segmentRoute Math (Some data) target = Normal segs /\
    forall s, In s segs ->
      (0 <= RouteSegment.startIndex s < RouteSegment.endIndex s)%Z /\
      (RouteSegment.endIndex s <= Z.of_nat (length coords) - 1)%Z.
Proof.
  intros Hc Hlen. rewrite (segmentRoute_unfold Math data coords target Hc).
  destruct (_ <=? target).
  - eexists. split; [reflexivity|]. intros s [<-|[]]. simpl. lia.
  - destruct (segmentation_loop Math coords
                (DirectionsResult.distance data / DirectionsResult.duration data)
                (target * 3600) Hlen) as (st & -> & _ & _ & Hidx & _).
    exists (segments st). split; [reflexivity|].
    intros s Hs. rewrite Forall_forall in Hidx. exact (Hidx s Hs).
Qed.

(** C5, at the failing input. A route whose coordinate array is empty and
    whose duration is within the target passes the guard and comes back as one
    segment that ends at index -1 and has no end points. *)
Theorem segmentRoute_empty_coordinates :
  segmentRoute Math (Some empty_route) 5 =
  Normal [ {| RouteSegment.startIndex := 0;
              RouteSegment.endIndex := -1;
              RouteSegment.startCoordinate := None;
              RouteSegment.endCoordinate := None;
              RouteSegment.distance := 0;
              RouteSegment.duration := 0;
              RouteSegment.coordinates := [] |} ].
Proof. reflexivity. Qed.

(** C6. When the route's duration divided by 3600 is at most the target,
    exactly one segment is returned; it spans indices 0 to [len - 1], carries
    the whole coordinate sequence and the route's own distance and duration. *)
Theorem segmentRoute_short_route
    (data : DirectionsResult.t) (coords : list Coord) (target : number) :
  route_coordinates data = Some coords ->
  (DirectionsResult.duration data / 3600 <=? target) = true ->
  exists s,
    segmentRoute Math (Some data) target = Normal [s] /\
    RouteSegment.startIndex s = 0%Z /\
    RouteSegment.endIndex s = (Z.of_nat (length coords) - 1)%Z /\
    RouteSegment.startCoordinate s = nth_error coords 0 /\
    RouteSegment.endCoordinate s = nth_error coords (length coords - 1) /\
    RouteSegment.coordinates s = coords /\
    RouteSegment.distance s = DirectionsResult.distance data /\
    RouteSegment.duration s = DirectionsResult.duration data.
Proof.
  intros Hc Hshort. rewrite (segmentRoute_unfold Math data coords target Hc), Hshort.
  eexists. split; [reflexivity|]. cbn [RouteSegment.startIndex RouteSegment.endIndex
    RouteSegment.startCoordinate RouteSegment.endCoordinate RouteSegment.coordinates
    RouteSegment.distance RouteSegment.duration].
  repeat split. apply array_get_last.
Qed.

(** C10. For every input, [segmentRoute] returns, and every returned segment
    other than the last has a duration of at least [targetHours * 3600]. *)
Theorem segmentRoute_inner_segments_reach_target
    (directionsData : option DirectionsResult.t) (target : number) :
  exists segs,
    segmentRoute Math directionsData target = Normal segs /\
    forall i s, nth_error segs i = Some s -> (i + 1 < length segs)%nat ->
                geb (RouteSegment.duration s) (target * 3600) = true.
Proof.
  destruct directionsData as [data|]; [|exists []; split; [reflexivity|]; intros [|i] s; discriminate].
  destruct (route_coordinates data) as [coords|] eqn:Hc.
  - rewrite (segmentRoute_unfold Math data coords target Hc).
    destruct (_ <=? target).
    + eexists. split; [reflexivity|]. simpl. intros i s _ Hi. lia.
    + destruct (le_lt_dec 2 (length coords)) as [Hlen|Hlen].
      * destruct (segmentation_loop Math coords
                    (DirectionsResult.distance data / DirectionsResult.duration data)
                    (target * 3600) Hlen) as (st & -> & _ & Hchain & Hidx & Hdur & _).
        exists (segments st). split; [reflexivity|].
        intros i s Hs Hi. rewrite Forall_forall in Hdur.
        apply (Hdur s (nth_error_In _ _ Hs)).
        eapply chained_inner_end; eauto.
      * replace (length coords - 1)%nat with 0%nat by lia.
        exists []. split; [reflexivity|]. intros [|i] s; discriminate.
  - rewrite segmentRoute_malformed by exact Hc.
    exists []. split; [reflexivity|]. intros [|i] s; discriminate.
Qed.


End SegmentRouteClaims.

(** ** Instances and counterexamples for [segmentRoute] *)

(** With the reference [Math], the California route splits in two at a
    2 hour target and comes back as one Haversine-measured segment at the
    default target: about 590.3 km, where the route says 600 km. *)
Example california_route_two_hours :
  option_map (map (fun s => (RouteSegment.startIndex s, RouteSegment.endIndex s)))
    (match segmentRoute RefMath.Math (Some california_route) 2 with
     | Normal segs => Some segs
     | Throw _ => None
     end) = Some [(0, 1); (1, 2)]%Z.
Proof. vm_compute. reflexivity. Qed.

Example california_route_default_target :
  match segmentRoute_default RefMath.Math (Some california_route) with
  | Normal [s] =>
      RouteSegment.endIndex s = 2%Z /\
      (590298 <? RouteSegment.distance s)%float = true /\
      (RouteSegment.distance s <? 590299)%float = true
  | _ => False
  end.
Proof. vm_compute. repeat split. Qed.

(** C2 on the California route, cut at a 2 hour target. *)
Lemma segmentRoute_contiguous_exhaustive_witness :
  exists segs,
    segmentRoute RefMath.Math (Some california_route) 2 = Normal segs /\
    (exists s, nth_error segs 0 = Some s /\ RouteSegment.startIndex s = 0%Z) /\
    (exists s, nth_error segs (length segs - 1) = Some s /\
               RouteSegment.endIndex s = 2%Z) /\
    (forall i s s', nth_error segs i = Some s -> nth_error segs (S i) = Some s' ->
                    RouteSegment.endIndex s = RouteSegment.startIndex s').
Proof.
  apply (segmentRoute_contiguous_exhaustive RefMath.Math california_route
           [(-122.42, 37.77); (-119.5, 36.5); (-118.24, 34.05)]%float 2).
  - reflexivity.
  - simpl. lia.
Defined.

(** C4 as stated fails on a route with a single coordinate: the segment
    returned for it starts and ends at index 0. *)
Lemma segmentRoute_indices_counterexample :
  ~ (forall (Math : MathObject) (data : DirectionsResult.t) (coords : list Coord)
            (target : number) (segs : list RouteSegment.t),
       route_coordinates data = Some coords ->
       segmentRoute Math (Some data) target = Normal segs ->
       forall s, In s segs ->
         (0 <= RouteSegment.startIndex s < RouteSegment.endIndex s)%Z /\
         (RouteSegment.endIndex s <= Z.of_nat (length coords) - 1)%Z).
Proof.
  intros H.
  specialize (H RefMath.Math single_point_route _ 5%float _ eq_refl eq_refl _ (or_introl eq_refl)).
  simpl in H. lia.
Qed.

(** C4, amended, on the California route at a 2 hour target. *)
Lemma segmentRoute_indices_in_range_witness :
  exists segs,
    segmentRoute RefMath.Math (Some california_route) 2 = Normal segs /\
    forall s, In s segs ->
      (0 <= RouteSegment.startIndex s < RouteSegment.endIndex s)%Z /\
      (RouteSegment.endIndex s <= 2)%Z.
Proof.
  apply (segmentRoute_indices_in_range RefMath.Math california_route
           [(-122.42, 37.77); (-119.5, 36.5); (-118.24, 34.05)]%float 2).
  - reflexivity.
  - simpl. lia.
Defined.

(** C6 on the California route at an 8 hour target (scenario 8 of the
    specification). *)
Lemma segmentRoute_short_route_witness :
  exists s,
    segmentRoute RefMath.Math (Some california_route) 8 = Normal [s] /\
    RouteSegment.startIndex s = 0%Z /\
    RouteSegment.endIndex s = 2%Z /\
    RouteSegment.startCoordinate s = Some (-122.42, 37.77)%float /\
    RouteSegment.endCoordinate s = Some (-118.24, 34.05)%float /\
    RouteSegment.coordinates s =
      [(-122.42, 37.77); (-119.5, 36.5); (-118.24, 34.05)]%float /\
    RouteSegment.distance s = 600000%float /\
    RouteSegment.duration s = 21600%float.
Proof.
  apply (segmentRoute_short_route RefMath.Math california_route
           [(-122.42, 37.77); (-119.5, 36.5); (-118.24, 34.05)]%float 8).
  - reflexivity.
  - reflexivity.
Defined.



(** ** [calculateDistance] *)

Section CalculateDistance.

Variable Math : MathObject.

Local Open Scope float_scope.


(** C9. When [Math.sin] is odd, the distance from [a] to [b] is the distance
    from [b] to [a], for all coordinates (and the call throws for the same
    arguments in both orders). *)
Theorem calculateDistance_symmetric (coord1 coord2 : option Coord) :
  sin_odd Math ->
  calculateDistance Math coord1 coord2 = calculateDistance Math coord2 coord1.
Proof.
  intros odd.
  destruct coord1 as [[lon1 lat1]|], coord2 as [[lon2 lat2]|]; try reflexivity.
  unfold calculateDistance. cbn [destructure bind fst snd].
  f_equal. now apply haversine_symmetric.
Qed.

End CalculateDistance.



(** C9 with the reference [Math], between San Francisco and Los Angeles. *)
Lemma calculateDistance_symmetric_witness :
  calculateDistance RefMath.Math (Some (-122.42, 37.77)%float)
                    (Some (-118.24, 34.05)%float) =
  calculateDistance RefMath.Math (Some (-118.24, 34.05)%float)
                    (Some (-122.42, 37.77)%float).
Proof.
  apply (calculateDistance_symmetric RefMath.Math
           (Some (-122.42, 37.77)%float) (Some (-118.24, 34.05)%float)).
  exact RefMath_sin_odd.
Defined.

(** With the reference [Math]: San Francisco to Los Angeles is about
    559.2 km, and a latitude difference of [1e-170] degrees is already lost
    when the sine is squared. *)
Example san_francisco_los_angeles :
  (559170 <? haversine RefMath.Math (-122.42) 37.77 (-118.24) 34.05)%float = true /\
  (haversine RefMath.Math (-122.42) 37.77 (-118.24) 34.05 <? 559171)%float = true.
Proof. vm_compute. split; reflexivity. Qed.

Example haversine_square_underflow :
  haversine RefMath.Math 0 0 0 1e-170 = 0%float.
Proof. vm_compute. reflexivity. Qed.

(** With the reference [Math], between the antipodal points [[0, 10]] and
    [[180, -10]] the sum [a] rounds above 1 and the distance is NaN. *)
Example haversine_antipodal_nan :
  is_nan (haversine RefMath.Math 0 10 180 (-10)) = true.
Proof. vm_compute. reflexivity. Qed.

(** ** Waypoint selection *)

Lemma Subsequence_refl {A} (l : list A) : Subsequence l l.
Proof. induction l; [apply Subsequence_nil|now apply Subsequence_keep]. Qed.

Lemma Subsequence_nil_l {A} (l : list A) : Subsequence [] l.
Proof. induction l; constructor; auto. Qed.

Lemma Subsequence_firstn {A} (n : nat) (l : list A) : Subsequence (firstn n l) l.
Proof.
  revert n; induction l as [|x l IH]; intros [|n]; simpl.
  - apply Subsequence_nil.
  - apply Subsequence_nil.
  - apply Subsequence_nil_l.
  - apply Subsequence_keep, IH.
Qed.

Lemma Subsequence_trans {A} (l1 l2 l3 : list A) :
  Subsequence l1 l2 -> Subsequence l2 l3 -> Subsequence l1 l3.
Proof.
  intros H12 H23; revert l1 H12.
  induction H23 as [|x l2 l3 H IH|x l2 l3 H IH]; intros l1 H12.
  - exact H12.
  - apply Subsequence_skip. auto.
  - inversion H12; subst.
    + apply Subsequence_skip. auto.
    + apply Subsequence_keep. auto.
Qed.

Section WaypointFacts.

Variable now : Z.

Lemma toPOI_promoted (index : nat) (place : GeminiRecommendedPlace.t) :
  (if has_valid_coordinate (toPOI now index place)
   then [PlaceOfInterest.coordinate (toPOI now index place)] else []) =
  match promoted place with Some c => [c] | None => [] end.
Proof.
  unfold has_valid_coordinate, promoted, toPOI. simpl.
  destruct (GeminiRecommendedPlace.coordinate place) as [[|c0 [|c1 [|c2 rest]]]|];
    try reflexivity.
  simpl. unfold strict_neq. destruct (c0 =? 0)%float, (c1 =? 0)%float; reflexivity.
Qed.

Lemma routePOIs_coordinates_from (index : nat) (places : list GeminiRecommendedPlace.t) :
  map PlaceOfInterest.coordinate
      (filter has_valid_coordinate (mapi_from (toPOI now) index places)) =
  promoted_coordinates promoted places.
Proof.
  revert index; induction places as [|place places IH]; intros index; [reflexivity|].
  simpl. rewrite <- (toPOI_promoted index place), <- (IH (S index)).
  destruct (has_valid_coordinate (toPOI now index place)); reflexivity.
Qed.

Lemma promoted_coordinates_subsequence (places : list GeminiRecommendedPlace.t) :
  Subsequence (promoted_coordinates promoted places)
    (map (fun place => coordinate_or_default (GeminiRecommendedPlace.coordinate place)) places).
Proof.
  induction places as [|place places IH]; simpl; [apply Subsequence_nil|].
  unfold promoted at 1.
  destruct (GeminiRecommendedPlace.coordinate place) as [[|c0 [|c1 [|c2 rest]]]|];
    simpl; try (apply Subsequence_skip; exact IH).
  destruct ((c0 =? 0) || (c1 =? 0))%float; simpl.
  - apply Subsequence_skip; exact IH.
  - apply Subsequence_keep; exact IH.
Qed.

Lemma selectWaypoints_firstn (places : list GeminiRecommendedPlace.t) :
  selectWaypoints now places =
  firstn 23 (map PlaceOfInterest.coordinate (routePOIs now places)).
Proof.
  unfold selectWaypoints, waypoints, limitedWaypoints.
  destruct (routePOIs now places) as [|poi pois]; reflexivity.
Qed.

(** C3, amended. The validation step drops exactly the places whose
    coordinate is absent, not of length 2, or has a zero longitude or a zero
    latitude, and promotes the coordinate of every other place, in order; on
    the scenario of the specification the result is [[[-100, 40]]]. *)
Theorem routePOIs_promotes_valid_places :
  (forall places : list GeminiRecommendedPlace.t,
     map PlaceOfInterest.coordinate (routePOIs now places) =
     promoted_coordinates promoted places) /\
  map PlaceOfInterest.coordinate (routePOIs now scenario_places) = [[-100; 40]%float] /\
  selectWaypoints now scenario_places = [[-100; 40]%float].
Proof.
  split; [|split; reflexivity].
  intros places. apply routePOIs_coordinates_from.
Qed.


End WaypointFacts.

(** C3 as stated fails on a place with a zero latitude: the specification's
    rule promotes [[-100, 0]], the filter drops it. *)
Lemma routePOIs_sentinel_counterexample :
  ~ (forall (now : Z) (places : list GeminiRecommendedPlace.t),
       map PlaceOfInterest.coordinate (routePOIs now places) =
       promoted_coordinates promoted_as_specified places).
Proof.
  intros H. specialize (H 0%Z [place_at (Some [-100; 0]%float)]).
  vm_compute in H. discriminate H.
Qed.

(** Thirty valid places: the first 23 are forwarded. *)
Example selectWaypoints_thirty_places :
  selectWaypoints 0 (repeat (place_at (Some [-100; 40]%float)) 30) =
  repeat [-100; 40]%float 23.
Proof. vm_compute. reflexivity. Qed.


(** * More about [segmentRoute] *)

Lemma slice_full {A} (l : list A) : slice l 0 (length l) = l.
Proof. unfold slice. rewrite Nat.sub_0_r. apply firstn_all. Qed.

Lemma firstn_plus {A} (n m : nat) (l : list A) :
  firstn (n + m) l = firstn n l ++ firstn m (skipn n l).
Proof.
  revert l; induction n as [|n IH]; intros l; [reflexivity|].
  destruct l as [|x l]; simpl; [now rewrite firstn_nil|]. now rewrite IH.
Qed.

Lemma slice_app {A} (l : list A) (a b c : nat) :
  a <= b <= c -> slice l a b ++ slice l b c = slice l a c.
Proof.
  intros H. unfold slice.
  replace (c - a) with ((b - a) + (c - b)) by lia.
  rewrite firstn_plus, skipn_skipn. now replace (b - a + a) with b by lia.
Qed.

Lemma tl_slice {A} (l : list A) (a b : nat) :
  a < b -> tl (slice l a b) = slice l (a + 1) b.
Proof.
  intros H. unfold slice.
  replace (b - a) with (S (b - (a + 1))) by lia.
  replace (a + 1) with (1 + a) by lia. rewrite <- skipn_skipn.
  destruct (skipn a l) as [|x rest]; simpl; [now rewrite firstn_nil|reflexivity].
Qed.

Lemma chained_le (len : nat) (segs : list RouteSegment.t) (from to : Z) :
  chained from segs to -> Forall (indices_ok len) segs ->
  (from + Z.of_nat (length segs) <= to)%Z.
Proof.
  revert from; induction segs as [|s segs IH]; simpl; intros from H Hall.
  - lia.
  - destruct H as [Hs H]. inversion Hall as [|? ? [H1 H2] Hrest]; subst.
    specialize (IH _ H Hrest). lia.
Qed.

Section SegmentShape.

Variable Math : MathObject.

Lemma chained_tails (coords : list Coord) (segs : list RouteSegment.t) (from to : Z) :
  chained from segs to -> (0 <= from)%Z ->
  Forall (indices_ok (length coords)) segs ->
  Forall (segment_of Math coords) segs ->
  flat_map (fun s => tl (RouteSegment.coordinates s)) segs =
  slice coords (Z.to_nat from + 1) (Z.to_nat to + 1).
Proof.
  revert from; induction segs as [|s segs IH]; simpl; intros from H Hfrom Hidx Hseg.
  - subst. unfold slice. now rewrite Nat.sub_diag.
  - destruct H as [Hs H].
    inversion Hidx as [|? ? [H1 H2] Hidx']; subst.
    inversion Hseg as [|? ? (Hc & _) Hseg']; subst.
    pose proof (chained_le _ _ _ _ H Hidx') as Hle.
    rewrite Hc, tl_slice by lia.
    rewrite (IH _ H ltac:(lia) Hidx' Hseg').
    apply slice_app. lia.
Qed.

Lemma chained_stitch (coords : list Coord) (segs : list RouteSegment.t) :
  segs <> [] ->
  chained 0 segs (Z.of_nat (length coords) - 1) ->
  Forall (indices_ok (length coords)) segs ->
  Forall (segment_of Math coords) segs ->
  stitch segs = coords.
Proof.
  intros Hne H Hidx Hseg. destruct segs as [|s segs]; [congruence|].
  simpl in *. destruct H as [Hs H].
  inversion Hidx as [|? ? [H1 H2] Hidx']; subst.
  inversion Hseg as [|? ? (Hc & _) Hseg']; subst.
  pose proof (chained_le _ _ _ _ H Hidx') as Hle.
  rewrite Hc, Hs, (chained_tails coords segs _ _ H ltac:(lia) Hidx' Hseg').
  change (Z.to_nat 0) with 0%nat.
  rewrite slice_app by lia.
  replace (Z.to_nat (Z.of_nat (length coords) - 1) + 1)%nat with (length coords) by lia.
  apply slice_full.
Qed.

Local Open Scope float_scope.

(** X1. On a route with at least two coordinates, the segments laid end to end
    give back the route's coordinate sequence. *)
Theorem segmentRoute_stitch
    (data : DirectionsResult.t) (coords : list Coord) (target : number) :
  route_coordinates data = Some coords ->
  (2 <= length coords)%nat ->
  exists segs,
    segmentRoute Math (Some data) target = Normal segs /\ stitch segs = coords.
Proof.
  intros Hc Hlen. rewrite (segmentRoute_unfold Math data coords target Hc).
  destruct (_ <=? target).
  - eexists. split; [reflexivity|]. simpl. apply app_nil_r.
  - destruct (segmentation_loop Math coords
                (DirectionsResult.distance data / DirectionsResult.duration data)
                (target * 3600) Hlen) as (st & -> & Hne & Hchain & Hidx & _ & Hseg).
    exists (segments st). split; [reflexivity|]. now apply chained_stitch.
Qed.

(** X2. On a route with at least two coordinates, every segment's end points are
    the route's coordinates at its two indices (so they are defined), and its
    coordinate list is the inclusive slice between them. *)
Theorem segmentRoute_segment_shape
    (data : DirectionsResult.t) (coords : list Coord) (target : number) :
  route_coordinates data = Some coords ->
  (2 <= length coords)%nat ->
  exists segs,
    segmentRoute Math (Some data) target = Normal segs /\
    forall s, In s segs ->
      RouteSegment.startCoordinate s <> None /\
      RouteSegment.endCoordinate s <> None /\
      RouteSegment.startCoordinate s =
        nth_error coords (Z.to_nat (RouteSegment.startIndex s)) /\
      RouteSegment.endCoordinate s =
        nth_error coords (Z.to_nat (RouteSegment.endIndex s)) /\
      RouteSegment.coordinates s =
        slice coords (Z.to_nat (RouteSegment.startIndex s))
                     (Z.to_nat (RouteSegment.endIndex s) + 1) /\
      Z.of_nat (length (RouteSegment.coordinates s)) =
        (RouteSegment.endIndex s - RouteSegment.startIndex s + 1)%Z.
Proof.
  intros Hc Hlen.
  assert (Hshape : forall s, indices_ok (length coords) s ->
            RouteSegment.coordinates s =
              slice coords (Z.to_nat (RouteSegment.startIndex s))
                           (Z.to_nat (RouteSegment.endIndex s) + 1) ->
            RouteSegment.startCoordinate s =
              nth_error coords (Z.to_nat (RouteSegment.startIndex s)) ->
            RouteSegment.endCoordinate s =
              nth_error coords (Z.to_nat (RouteSegment.endIndex s)) ->
            RouteSegment.startCoordinate s <> None /\
            RouteSegment.endCoordinate s <> None /\
            RouteSegment.startCoordinate s =
              nth_error coords (Z.to_nat (RouteSegment.startIndex s)) /\
            RouteSegment.endCoordinate s =
              nth_error coords (Z.to_nat (RouteSegment.endIndex s)) /\
            RouteSegment.coordinates s =
              slice coords (Z.to_nat (RouteSegment.startIndex s))
                           (Z.to_nat (RouteSegment.endIndex s) + 1) /\
            Z.of_nat (length (RouteSegment.coordinates s)) =
              (RouteSegment.endIndex s - RouteSegment.startIndex s + 1)%Z).
  { intros s [H1 H2] Hcs Hstart Hend.
    rewrite Hstart, Hend, Hcs. repeat split.
    - apply nth_error_Some. lia.
    - apply nth_error_Some. lia.
    - rewrite slice_length by lia. lia. }
  rewrite (segmentRoute_unfold Math data coords target Hc).
  destruct (_ <=? target).
  - eexists. split; [reflexivity|]. intros s [<-|[]].
    apply Hshape; simpl.
    + split; simpl; lia.
    + replace (Z.to_nat (Z.of_nat (length coords) - 1) + 1)%nat with (length coords) by lia.
      symmetry. apply slice_full.
    + reflexivity.
    + rewrite array_get_last. f_equal. lia.
  - destruct (segmentation_loop Math coords
                (DirectionsResult.distance data / DirectionsResult.duration data)
                (target * 3600) Hlen) as (st & -> & _ & _ & Hidx & _ & Hseg).
    exists (segments st). split; [reflexivity|].
    rewrite Forall_forall in Hidx, Hseg. intros s Hs.
    destruct (Hseg s Hs) as (Hcs & Hstart & Hend & _). apply Hshape; auto.
Qed.

(** X3. On a route with [len >= 2] coordinates there is at least one segment and
    at most [len - 1]. *)
Theorem segmentRoute_segment_count
    (data : DirectionsResult.t) (coords : list Coord) (target : number) :
  route_coordinates data = Some coords ->
  (2 <= length coords)%nat ->
  exists segs,
    segmentRoute Math (Some data) target = Normal segs /\
    (1 <= length segs <= length coords - 1)%nat.
Proof.
  intros Hc Hlen. rewrite (segmentRoute_unfold Math data coords target Hc).
  destruct (_ <=? target).
  - eexists. split; [reflexivity|]. simpl. lia.
  - destruct (segmentation_loop Math coords
                (DirectionsResult.distance data / DirectionsResult.duration data)
                (target * 3600) Hlen) as (st & -> & Hne & Hchain & Hidx & _).
    exists (segments st). split; [reflexivity|].
    pose proof (chained_le _ _ _ _ Hchain Hidx).
    destruct (segments st); [congruence|]. simpl in *. lia.
Qed.

(** X18. For every route and target, each segment ends at the coordinate
    at which the next one starts, and that coordinate is defined: the
    next segment's start can stand for the current segment's end. *)
Theorem segmentRoute_shared_boundaries
    (directionsData : option DirectionsResult.t) (target : number) :
  exists segs,
    segmentRoute Math directionsData target = Normal segs /\
    forall i s s', nth_error segs i = Some s -> nth_error segs (S i) = Some s' ->
      RouteSegment.endCoordinate s = RouteSegment.startCoordinate s' /\
      RouteSegment.startCoordinate s' <> None.
Proof.
  assert (Hnone : forall segs : list RouteSegment.t, (length segs <= 1)%nat ->
            forall i s s', nth_error segs i = Some s -> nth_error segs (S i) = Some s' ->
              RouteSegment.endCoordinate s = RouteSegment.startCoordinate s' /\
              RouteSegment.startCoordinate s' <> None).
  { intros segs Hlen i s s' _ H.
    assert (S i < length segs)%nat by (apply nth_error_Some; congruence). lia. }
  destruct directionsData as [data|];
    [|exists []; split; [reflexivity|apply Hnone; simpl; lia]].
  destruct (route_coordinates data) as [coords|] eqn:Hc.
  - rewrite (segmentRoute_unfold Math data coords target Hc).
    destruct (_ <=? target); [eexists; split; [reflexivity|apply Hnone; simpl; lia]|].
    destruct (le_lt_dec 2 (length coords)) as [Hlen|Hlen].
    + destruct (segmentation_loop Math coords
                  (DirectionsResult.distance data / DirectionsResult.duration data)
                  (target * 3600) Hlen) as (st & -> & _ & Hchain & Hidx & _ & Hseg).
      exists (segments st). split; [reflexivity|]. intros i s s' Hs Hs'.
      pose proof (chained_adjacent _ _ _ _ _ _ Hchain Hs Hs') as Hadj.
      rewrite Forall_forall in Hidx, Hseg.
      destruct (Hseg s (nth_error_In _ _ Hs)) as (_ & _ & Hend & _).
      destruct (Hseg s' (nth_error_In _ _ Hs')) as (_ & Hstart & _).
      destruct (Hidx s' (nth_error_In _ _ Hs')) as [H1 H2].
      rewrite Hend, Hstart, Hadj. split; [reflexivity|]. apply nth_error_Some. lia.
    + replace (length coords - 1)%nat with 0%nat by lia.
      exists []. split; [reflexivity|apply Hnone; simpl; lia].
  - rewrite segmentRoute_malformed by exact Hc.
    exists []. split; [reflexivity|apply Hnone; simpl; lia].
Qed.

End SegmentShape.

(** ** Where the boundaries fall *)

Section PathDurationFacts.

Variable Math : MathObject.

Local Open Scope float_scope.

Lemma fold_add_edge_duration_snd (ratio : number) (rest : list Coord) (st : number * Coord)
    (p : Coord) :
  nth_error (snd st :: rest) (length rest) = Some p ->
  snd (fold_left (add_edge_duration Math ratio) rest st) = p.
Proof.
  revert st; induction rest as [|c rest IH]; intros st H; simpl in *.
  - now injection H.
  - apply IH. exact H.
Qed.

Lemma pathDuration_snoc (ratio : number) (l : list Coord) (p q : Coord) :
  nth_error l (length l - 1) = Some p ->
  pathDuration Math ratio (l ++ [q]) =
  pathDuration Math ratio l + haversine Math (fst p) (snd p) (fst q) (snd q) / ratio.
Proof.
  destruct l as [|c rest]; simpl; [discriminate|].
  rewrite Nat.sub_0_r. intros H.
  rewrite fold_left_app. simpl.
  now rewrite (fold_add_edge_duration_snd ratio rest (0, c) p H).
Qed.

Lemma duration_inv_init (coords : list Coord) (ratio target : number) :
  duration_inv Math coords ratio target 1
    {| segments := []; currentSegmentStart := 0;
       accumulatedDuration := 0; accumulatedDistance := 0 |}.
Proof.
  constructor; simpl; auto; try lia.
  destruct coords as [|c coords]; reflexivity.
Qed.

Lemma loop_body_duration_inv (coords : list Coord) (ratio target : number) (i : nat)
    (st : LoopState) :
  (1 <= i < length coords)%nat ->
  duration_inv Math coords ratio target i st ->
  exists st', loop_body Math coords ratio target i st = Normal st' /\
              duration_inv Math coords ratio target (S i) st'.
Proof.
  intros Hi [Hstart Hdur Hbelow Hsegs].
  destruct (nth_error coords (i - 1)) as [p|] eqn:Hp;
    [|apply nth_error_None in Hp; lia].
  destruct (nth_error coords i) as [q|] eqn:Hq;
    [|apply nth_error_None in Hq; lia].
  assert (Hacc : accumulatedDuration st +
                 haversine Math (fst p) (snd p) (fst q) (snd q) / ratio =
                 pathDuration Math ratio (slice coords (currentSegmentStart st) (i + 1))).
  { rewrite (slice_snoc coords (currentSegmentStart st) i q) by (auto; lia).
    rewrite (pathDuration_snoc ratio _ p q), Hdur; [reflexivity|].
    rewrite slice_length by lia. rewrite slice_nth_error by lia.
    rewrite <- Hp. f_equal. lia. }
  unfold loop_body, calculateDistance. rewrite Hp, Hq. simpl bind. cbv zeta.
  rewrite Hacc.
  destruct (geb _ target) eqn:Hreach; simpl orb.
  - eexists. split; [reflexivity|]. constructor; simpl.
    + lia.
    + replace (S i) with (i + 1)%nat by lia. unfold slice.
      replace (i + 1 - i)%nat with 1%nat by lia.
      destruct (skipn i coords) as [|c rest]; reflexivity.
    + intros j Hj. lia.
    + apply Forall_app. split; [exact Hsegs|]. repeat constructor; simpl;
        rewrite !Nat2Z.id; [reflexivity|exact Hbelow].
  - assert (Hbelow' : forall j, (currentSegmentStart st < j < S i)%nat ->
              geb (pathDuration Math ratio (slice coords (currentSegmentStart st) (j + 1)))
                  target = false).
    { intros j Hj. destruct (Nat.eq_dec j i) as [->|Hne]; [exact Hreach|].
      apply Hbelow. lia. }
    destruct (Z.of_nat i =? Z.of_nat (length coords) - 1)%Z.
    + eexists. split; [reflexivity|]. constructor; simpl.
      * lia.
      * replace (S i) with (i + 1)%nat by lia. unfold slice.
        replace (i + 1 - i)%nat with 1%nat by lia.
        destruct (skipn i coords) as [|c rest]; reflexivity.
      * intros j Hj. lia.
      * apply Forall_app. split; [exact Hsegs|]. repeat constructor; simpl;
          rewrite !Nat2Z.id; [reflexivity|exact Hbelow].
    + eexists. split; [reflexivity|]. constructor; simpl; auto.
      replace (S i) with (i + 1)%nat by lia. reflexivity.
Qed.

(** X4. In the loop branch, on a route with at least two coordinates: the
    duration of every segment is the estimate accumulated over the
    coordinates it spans, and a boundary is placed at the first coordinate
    where that estimate reaches the target (at no coordinate strictly inside
    a segment has it been reached). *)
Theorem segmentRoute_boundary_at_first_reach
    (data : DirectionsResult.t) (coords : list Coord) (target : number) :
  route_coordinates data = Some coords ->
  (2 <= length coords)%nat ->
  (DirectionsResult.duration data / 3600 <=? target) = false ->
  exists segs,
    segmentRoute Math (Some data) target = Normal segs /\
    forall s, In s segs ->
      first_reach Math coords
        (DirectionsResult.distance data / DirectionsResult.duration data)
        (target * 3600) s.
Proof.
  intros Hc Hlen Hlong.
  rewrite (segmentRoute_unfold Math data coords target Hc), Hlong.
  set (ratio := DirectionsResult.distance data / DirectionsResult.duration data).
  destruct (for_each_invariant (loop_body Math coords ratio (target * 3600))
              (duration_inv Math coords ratio (target * 3600)) (length coords - 1) 1
              {| segments := []; currentSegmentStart := 0;
                 accumulatedDuration := 0; accumulatedDistance := 0 |})
    as (st & -> & Hinv).
  - intros i s Hi. apply loop_body_duration_inv. lia.
  - apply duration_inv_init.
  - exists (segments st). split; [reflexivity|].
    destruct Hinv as [_ _ _ Hsegs]. rewrite Forall_forall in Hsegs. exact Hsegs.
Qed.

Lemma leb_nan_l (x : float) : (nan <=? x) = false.
Proof. rewrite leb_spec. reflexivity. Qed.

Lemma leb_nan_r (x : float) : (x <=? nan) = false.
Proof.
  rewrite leb_spec. change (Prim2SF nan) with S754_nan.
  unfold SFleb, SFcompare. now destruct (Prim2SF x).
Qed.

(** X5. With a NaN target a route with at least two coordinates is never split:
    the result is one segment over all the coordinates, measured by
    Haversine (not the route's own totals). *)
Theorem segmentRoute_nan_target
    (data : DirectionsResult.t) (coords : list Coord) :
  route_coordinates data = Some coords ->
  (2 <= length coords)%nat ->
  exists s,
    segmentRoute Math (Some data) nan = Normal [s] /\
    RouteSegment.startIndex s = 0%Z /\
    RouteSegment.endIndex s = (Z.of_nat (length coords) - 1)%Z /\
    RouteSegment.coordinates s = coords /\
    RouteSegment.distance s = pathLength Math coords.
Proof.
  intros Hc Hlen. rewrite (segmentRoute_unfold Math data coords nan Hc), leb_nan_r.
  destruct (segmentation_loop Math coords
              (DirectionsResult.distance data / DirectionsResult.duration data)
              (nan * 3600) Hlen) as (st & -> & Hne & Hchain & Hidx & Hdur & Hseg).
  destruct (segments st) as [|s [|s' rest]] eqn:Hsegs; [congruence| |].
  - exists s. split; [simpl; now rewrite Hsegs|]. simpl in Hchain. destruct Hchain as [H0 Hend].
    inversion Hseg as [|? ? (Hcs & _ & _ & Hd) _]; subst.
    assert (Hcoords : RouteSegment.coordinates s = coords).
    { rewrite Hcs, H0, Hend.
      replace (Z.to_nat (Z.of_nat (length coords) - 1) + 1)%nat with (length coords) by lia.
      apply slice_full. }
    repeat split; auto. now rewrite Hd, Hcoords.
  - exfalso.
    pose proof (chained_inner_end (length coords) (s :: s' :: rest) _ _ 0 s
                  Hchain Hidx eq_refl ltac:(simpl; lia)) as Hinner.
    inversion Hdur as [|? ? Hreach _]; subst.
    specialize (Hreach Hinner). unfold geb in Hreach.
    change (nan * 3600) with nan in Hreach. now rewrite leb_nan_l in Hreach.
Qed.

End PathDurationFacts.

(** ** Instances on the California route *)

(** The two segments of the California route at a 2 hour target, laid end to
    end, are its three coordinates. *)
Lemma segmentRoute_stitch_witness :
  exists segs,
    segmentRoute RefMath.Math (Some california_route) 2 = Normal segs /\
    stitch segs = [(-122.42, 37.77); (-119.5, 36.5); (-118.24, 34.05)]%float.
Proof.
  apply (segmentRoute_stitch RefMath.Math california_route
           [(-122.42, 37.77); (-119.5, 36.5); (-118.24, 34.05)]%float 2).
  - reflexivity.
  - simpl. lia.
Defined.

Lemma segmentRoute_segment_shape_witness :
  exists segs,
    segmentRoute RefMath.Math (Some california_route) 2 = Normal segs /\
    forall s, In s segs ->
      RouteSegment.startCoordinate s <> None /\
      RouteSegment.endCoordinate s <> None /\
      RouteSegment.startCoordinate s =
        nth_error [(-122.42, 37.77); (-119.5, 36.5); (-118.24, 34.05)]%float
                  (Z.to_nat (RouteSegment.startIndex s)) /\
      RouteSegment.endCoordinate s =
        nth_error [(-122.42, 37.77); (-119.5, 36.5); (-118.24, 34.05)]%float
                  (Z.to_nat (RouteSegment.endIndex s)) /\
      RouteSegment.coordinates s =
        slice [(-122.42, 37.77); (-119.5, 36.5); (-118.24, 34.05)]%float
              (Z.to_nat (RouteSegment.startIndex s))
              (Z.to_nat (RouteSegment.endIndex s) + 1) /\
      Z.of_nat (length (RouteSegment.coordinates s)) =
        (RouteSegment.endIndex s - RouteSegment.startIndex s + 1)%Z.
Proof.
  apply (segmentRoute_segment_shape RefMath.Math california_route
           [(-122.42, 37.77); (-119.5, 36.5); (-118.24, 34.05)]%float 2).
  - reflexivity.
  - simpl. lia.
Defined.

Lemma segmentRoute_segment_count_witness :
  exists segs,
    segmentRoute RefMath.Math (Some california_route) 2 = Normal segs /\
    (1 <= length segs <= 2)%nat.
Proof.
  apply (segmentRoute_segment_count RefMath.Math california_route
           [(-122.42, 37.77); (-119.5, 36.5); (-118.24, 34.05)]%float 2).
  - reflexivity.
  - simpl. lia.
Defined.

Lemma segmentRoute_boundary_at_first_reach_witness :
  exists segs,
    segmentRoute RefMath.Math (Some california_route) 2 = Normal segs /\
    forall s, In s segs ->
      first_reach RefMath.Math
        [(-122.42, 37.77); (-119.5, 36.5); (-118.24, 34.05)]%float
        (DirectionsResult.distance california_route /
         DirectionsResult.duration california_route)%float
        (2 * 3600)%float s.
Proof.
  apply (segmentRoute_boundary_at_first_reach RefMath.Math california_route
           [(-122.42, 37.77); (-119.5, 36.5); (-118.24, 34.05)]%float 2).
  - reflexivity.
  - simpl. lia.
  - reflexivity.
Defined.

Lemma segmentRoute_nan_target_witness :
  exists s,
    segmentRoute RefMath.Math (Some california_route) nan = Normal [s] /\
    RouteSegment.startIndex s = 0%Z /\
    RouteSegment.endIndex s = 2%Z /\
    RouteSegment.coordinates s =
      [(-122.42, 37.77); (-119.5, 36.5); (-118.24, 34.05)]%float /\
    RouteSegment.distance s =
      pathLength RefMath.Math [(-122.42, 37.77); (-119.5, 36.5); (-118.24, 34.05)]%float.
Proof.
  apply (segmentRoute_nan_target RefMath.Math california_route
           [(-122.42, 37.77); (-119.5, 36.5); (-118.24, 34.05)]%float).
  - reflexivity.
  - simpl. lia.
Defined.

(** * Category preferences *)

Lemma Subsequence_filter {A} (f : A -> bool) (l : list A) : Subsequence (filter f l) l.
Proof.
  induction l as [|x l IH]; simpl; [apply Subsequence_nil|].
  destruct (f x); [apply Subsequence_keep|apply Subsequence_skip]; exact IH.
Qed.

Lemma filter_all {A} (f : A -> bool) (l : list A) :
  Forall (fun x => f x = true) l -> filter f l = l.
Proof.
  induction 1 as [|x l Hx _ IH]; simpl; [reflexivity|]. now rewrite Hx, IH.
Qed.

Lemma selectedCategories_categoryKeywords (p : CategoryPreferences.t) :
  selectedCategories p = [] -> categoryKeywords p = [].
Proof. destruct p as [[] [] [] [] [] []]; simpl; intros H; try discriminate H; reflexivity. Qed.

Section CategoryFilter.

Variable toLowerCase : string -> string.

(** X6. The category filter never empties, reorders or extends the list:
    the places it returns are a subsequence of the recommended ones,
    non-empty when those are, and either all of them or exactly the ones
    that match a keyword of the selected categories. *)
Theorem applyPreferences_keeps_places (preferences : option CategoryPreferences.t)
    (places : list GeminiRecommendedPlace.t) :
  exists kept,
    applyPreferences toLowerCase preferences (Some places) = Some kept /\
    Subsequence kept places /\
    (places <> [] -> kept <> []) /\
    (kept = places \/
     exists p, preferences = Some p /\
               kept = filter (matchesKeywords toLowerCase (categoryKeywords p)) places).
Proof.
  assert (Hsame : exists kept, Some places = Some kept /\ Subsequence kept places /\
            (places <> [] -> kept <> []) /\
            (kept = places \/
             exists p, preferences = Some p /\
                       kept = filter (matchesKeywords toLowerCase (categoryKeywords p)) places)).
  { exists places. repeat split; auto. apply Subsequence_refl. }
  unfold applyPreferences. destruct preferences as [p|]; [|exact Hsame].
  destruct (0 <? length places)%nat; [|exact Hsame].
  cbv zeta. destruct (0 <? length (categoryKeywords p))%nat; [|exact Hsame].
  destruct (0 <? length (filter _ places))%nat eqn:Hf; [|exact Hsame].
  eexists. split; [reflexivity|]. split; [apply Subsequence_filter|]. split.
  - intros _ H. rewrite H in Hf. discriminate Hf.
  - right. now exists p.
Qed.

(** X7. Filtering an already filtered result with the same preferences
    changes nothing. *)
Theorem applyPreferences_idempotent (preferences : option CategoryPreferences.t)
    (recommendedPlaces : option (list GeminiRecommendedPlace.t)) :
  applyPreferences toLowerCase preferences
    (applyPreferences toLowerCase preferences recommendedPlaces) =
  applyPreferences toLowerCase preferences recommendedPlaces.
Proof.
  destruct preferences as [p|], recommendedPlaces as [places|]; try reflexivity.
  unfold applyPreferences at 2.
  destruct (0 <? length places)%nat eqn:Hp; [|unfold applyPreferences; now rewrite Hp].
  cbv zeta. destruct (0 <? length (categoryKeywords p))%nat eqn:Hk;
    [|unfold applyPreferences; now rewrite Hp, Hk].
  destruct (0 <? length (filter _ places))%nat eqn:Hf;
    [|unfold applyPreferences; now rewrite Hp, Hk, Hf].
  unfold applyPreferences. rewrite Hf, Hk. cbv zeta.
  rewrite (filter_all (matchesKeywords toLowerCase (categoryKeywords p))
             (filter (matchesKeywords toLowerCase (categoryKeywords p)) places));
    [now rewrite Hf, Hp|].
  apply Forall_forall. intros x Hx. now apply filter_In in Hx.
Qed.

(** X8. The prompt and the filter agree on when the categories count: if
    the prompt carries no category restriction, the filter leaves the
    recommended places as they are. *)
Theorem categoryFocus_empty_keeps_all (preferences : option CategoryPreferences.t)
    (recommendedPlaces : option (list GeminiRecommendedPlace.t)) :
  categoryFocus preferences = EmptyString ->
  applyPreferences toLowerCase preferences recommendedPlaces = recommendedPlaces.
Proof.
  destruct preferences as [p|]; [|reflexivity].
  destruct recommendedPlaces as [places|]; [|reflexivity].
  unfold categoryFocus. cbv zeta.
  destruct (selectedCategories p) as [|c cs] eqn:Hsel; [|discriminate].
  intros _. unfold applyPreferences.
  rewrite (selectedCategories_categoryKeywords p Hsel). simpl.
  now destruct (0 <? length places)%nat.
Qed.

End CategoryFilter.

(** X8 where no category is selected (the prompt has no restriction) and
    ASCII lower-casing is the identity on the place. *)
Lemma categoryFocus_empty_keeps_all_witness :
  applyPreferences (fun s => s)
    (Some {| CategoryPreferences.nationalParks := false;
             CategoryPreferences.landmarks := false;
             CategoryPreferences.scenicViews := false;
             CategoryPreferences.food := false;
             CategoryPreferences.cities := false;
             CategoryPreferences.quirky := false |})
    (Some scenario_places) = Some scenario_places.
Proof.
  apply (categoryFocus_empty_keeps_all (fun s => s)
           (Some {| CategoryPreferences.nationalParks := false;
                    CategoryPreferences.landmarks := false;
                    CategoryPreferences.scenicViews := false;
                    CategoryPreferences.food := false;
                    CategoryPreferences.cities := false;
                    CategoryPreferences.quirky := false |})
           (Some scenario_places)).
  reflexivity.
Defined.

(** X9. The [default] branch of the loading message's [switch] is never
    taken: whatever the preferences, the message does not fall back to the
    bare word [places]; with exactly one category selected it names that
    category. *)
Theorem poiLoadingMessage_names_the_category (categoryPreferences : CategoryPreferences.t) :
  poiLoadingMessage categoryPreferences <> "Finding places along your journey..."%string /\
  (getActiveCategoryCount categoryPreferences = 1 ->
   exists key, In (key, true) (entries categoryPreferences) /\
               categoryName (Some key) <> "places"%string /\
               poiLoadingMessage categoryPreferences =
               ("Finding " ++ categoryName (Some key) ++ " along your journey...")%string).
Proof.
  destruct categoryPreferences as [[] [] [] [] [] []];
    (split; [vm_compute; discriminate|]);
    intros H; try discriminate H;
    eexists;
    (split;
     [cbv [entries CategoryPreferences.nationalParks CategoryPreferences.landmarks
           CategoryPreferences.scenicViews CategoryPreferences.food
           CategoryPreferences.cities CategoryPreferences.quirky];
      auto 10 using in_eq, in_cons
     |split; [vm_compute; discriminate|vm_compute; reflexivity]]).
Qed.

(** * The coordinates of the routing request *)

Lemma append_assoc (a b c : string) : ((a ++ b) ++ c = a ++ (b ++ c))%string.
Proof. induction a as [|x a IH]; simpl; [reflexivity|now rewrite IH]. Qed.

Lemma append_nil_r (a : string) : (a ++ EmptyString = a)%string.
Proof. induction a as [|x a IH]; simpl; [reflexivity|now rewrite IH]. Qed.

Lemma join_cons (separator x y : string) (l : list string) :
  join separator (x :: y :: l) = (x ++ separator ++ join separator (y :: l))%string.
Proof. reflexivity. Qed.

Lemma join_snoc (separator x : string) (l : list string) :
  l <> [] -> join separator (l ++ [x]) = (join separator l ++ separator ++ x)%string.
Proof.
  induction l as [|y l IH]; [congruence|]. intros _.
  destruct l as [|z l].
  - reflexivity.
  - change ((y :: z :: l) ++ [x])%list with (y :: z :: (l ++ [x]))%list.
    rewrite !join_cons. change (z :: (l ++ [x]))%list with ((z :: l) ++ [x])%list.
    rewrite IH by discriminate. now rewrite !append_assoc.
Qed.

Section DirectionsFacts.

Variable Number_toString : number -> string.

Lemma coordinatesString_loop (waypoints done : list (list number)) :
  done <> [] ->
  fold_left (fun acc waypoint => (acc ++ ";" ++ lonlat Number_toString waypoint)%string)
            waypoints (join ";" (map (lonlat Number_toString) done)) =
  join ";" (map (lonlat Number_toString) (done ++ waypoints)).
Proof.
  revert done; induction waypoints as [|w ws IH]; intros done Hne; cbn [fold_left].
  - now rewrite app_nil_r.
  - rewrite <- join_snoc by (destruct done; [congruence|discriminate]).
    change [lonlat Number_toString w] with (map (lonlat Number_toString) [w]).
    rewrite <- (map_app (lonlat Number_toString) done [w]).
    rewrite IH by (destruct done; discriminate).
    now rewrite <- app_assoc.
Qed.

(** X10. The coordinate string [getDirections] puts in the request URL is
    the [lon,lat] pairs of the origin, the first 23 waypoints and the
    destination, in that order, joined by semicolons; so a request carries
    at least 2 and at most 25 coordinates. *)
Theorem coordinatesString_joins_request_stops (origin destination : list number)
    (waypoints : option (list (list number))) :
  coordinatesString Number_toString origin destination waypoints =
    join ";" (map (lonlat Number_toString) (requestStops origin destination waypoints)) /\
  (2 <= length (requestStops origin destination waypoints) <= 25)%nat.
Proof.
  split.
  - unfold coordinatesString, requestStops, limitedWaypoints. cbv zeta.
    rewrite app_comm_cons, map_app.
    change (map (lonlat Number_toString) [destination])
      with [lonlat Number_toString destination].
    rewrite join_snoc by discriminate. f_equal.
    destruct waypoints as [w|]; [|reflexivity].
    destruct (0 <? length w)%nat; [|reflexivity].
    apply (coordinatesString_loop (slice w 0 23) [origin]). discriminate.
  - unfold requestStops, limitedWaypoints. simpl. rewrite length_app. simpl.
    destruct waypoints as [w|]; [|simpl; lia].
    destruct (0 <? length w)%nat; [|simpl; lia].
    unfold slice. rewrite length_firstn. change (23 - 0)%nat with 23%nat. lia.
Qed.

End DirectionsFacts.

(** * The location autocomplete component *)

Section AutocompleteFacts.

Import Autocomplete.

Variable trim : string -> string.

Lemma handle_highlight (st : state) (ev : event) :
  highlight_in_range st ->
  exists st', handle trim st ev = Normal st' /\ highlight_in_range st'.
Proof.
  intros Hinv. unfold highlight_in_range in *.
  destruct ev as [text| |results| |key|i|i| |]; simpl.
  - eexists; split; [reflexivity|]; simpl; auto.
  - destruct (_ <? 2)%nat; eexists; (split; [reflexivity|]); simpl; auto; congruence.
  - eexists; split; [reflexivity|]; simpl. intros H.
    destruct results; [congruence|]. simpl. lia.
  - eexists; split; [reflexivity|]; simpl; auto.
  - unfold handleKeydown.
    destruct (length (suggestions st) =? 0)%nat eqn:Hlen; [eauto|].
    apply Nat.eqb_neq in Hlen.
    assert (Hne : suggestions st <> []) by (destruct (suggestions st); [simpl in Hlen; lia|discriminate]).
    specialize (Hinv Hne).
    destruct (key =? "ArrowDown")%string;
      [eexists; split; [reflexivity|]; simpl; intros _; lia|].
    destruct (key =? "ArrowUp")%string;
      [eexists; split; [reflexivity|]; simpl; intros _; lia|].
    destruct (key =? "Enter")%string.
    + destruct (0 <=? selectedIndex st)%Z eqn:Hsel; [|eauto].
      apply Z.leb_le in Hsel. unfold array_get.
      destruct (selectedIndex st <? 0)%Z eqn:Hneg; [apply Z.ltb_lt in Hneg; lia|].
      destruct (nth_error (suggestions st) (Z.to_nat (selectedIndex st))) eqn:Hnth;
        [|apply nth_error_None in Hnth; lia].
      eexists; split; [reflexivity|]; simpl; congruence.
    + destruct (key =? "Escape")%string; [|eauto].
      eexists; split; [reflexivity|]; simpl; congruence.
  - destruct (rendered st i); [|eauto].
    eexists; split; [reflexivity|]; simpl; congruence.
  - destruct (rendered st i) eqn:Hr; [|eauto].
    eexists; split; [reflexivity|]; simpl. intros _.
    unfold rendered in Hr. destruct (_ && _); [|discriminate].
    assert (i < length (suggestions st))%nat by (apply nth_error_Some; congruence). lia.
  - eexists; split; [reflexivity|]; simpl; auto.
  - eexists; split; [reflexivity|]; simpl; auto.
Qed.

Lemma run_highlight (events : list event) (st : state) :
  highlight_in_range st ->
  exists st', run trim st events = Normal st' /\ highlight_in_range st'.
Proof.
  revert st; induction events as [|ev events IH]; intros st Hinv; simpl.
  - eauto.
  - destruct (handle_highlight st ev Hinv) as (st1 & -> & Hinv1). simpl.
    apply IH, Hinv1.
Qed.

(** X11. Whatever the user types, presses or points at, and whatever the
    searches return, no handler of the component throws (Enter never
    selects [undefined]), and while suggestions are listed the highlighted
    index is [-1] or the index of a listed suggestion. *)
Theorem autocomplete_highlight_in_range (events : list event) :
  exists st,
    run trim initial events = Normal st /\
    (suggestions st <> [] ->
     (-1 <= selectedIndex st < Z.of_nat (length (suggestions st)))%Z).
Proof.
  apply run_highlight. intros H. now contradiction H.
Qed.

Lemma handle_locations (P : Location.t -> Prop) (st st' : state) (ev : event) :
  all_locations P st ->
  match ev with
  | InputResolved results => forall l, In l results -> P l
  | _ => True
  end ->
  handle trim st ev = Normal st' ->
  all_locations P st'.
Proof.
  unfold all_locations. intros Hinv Hev.
  assert (Hselect : forall loc, In loc (suggestions st) ->
            handleSelect st (Some loc) = Normal st' ->
            forall l, In l (suggestions st') \/ In l (dispatched st') -> P l).
  { intros loc Hloc H l. injection H as <-. simpl.
    intros [[]|[<-|Hl]]; auto. }
  destruct ev as [text| |results| |key|i|i| |]; simpl.
  - intros H; injection H as <-; exact Hinv.
  - destruct (_ <? 2)%nat; intros H; injection H as <-; simpl; [|exact Hinv].
    intros l [[]|Hl]; auto.
  - intros H; injection H as <-; simpl. intros l [Hl|Hl]; auto.
  - intros H; injection H as <-; exact Hinv.
  - unfold handleKeydown.
    destruct (length (suggestions st) =? 0)%nat; [intros H; injection H as <-; exact Hinv|].
    destruct (key =? "ArrowDown")%string; [intros H; injection H as <-; exact Hinv|].
    destruct (key =? "ArrowUp")%string; [intros H; injection H as <-; exact Hinv|].
    destruct (key =? "Enter")%string.
    + destruct (0 <=? selectedIndex st)%Z; [|intros H; injection H as <-; exact Hinv].
      unfold array_get. destruct (selectedIndex st <? 0)%Z; [discriminate|].
      destruct (nth_error _ _) as [loc|] eqn:Hnth; [|discriminate].
      apply Hselect. eapply nth_error_In, Hnth.
    + destruct (key =? "Escape")%string; intros H; injection H as <-; simpl; [|exact Hinv].
      intros l [[]|Hl]; auto.
  - destruct (rendered st i) as [loc|] eqn:Hr; [|intros H; injection H as <-; exact Hinv].
    apply Hselect. unfold rendered in Hr. destruct (_ && _); [|discriminate].
    eapply nth_error_In, Hr.
  - destruct (rendered st i); intros H; injection H as <-; exact Hinv.
  - intros H; injection H as <-; exact Hinv.
  - intros H; injection H as <-; exact Hinv.
Qed.

Lemma run_locations (P : Location.t -> Prop) (events : list event) (st st' : state) :
  all_locations P st ->
  (forall results l, In (InputResolved results) events -> In l results -> P l) ->
  run trim st events = Normal st' ->
  all_locations P st'.
Proof.
  revert st; induction events as [|ev events IH]; intros st Hinv Hev; simpl.
  - intros H; injection H as <-; exact Hinv.
  - destruct (handle trim st ev) as [st1|e] eqn:Hstep; [|discriminate]. simpl.
    apply IH.
    + apply (handle_locations P st st1 ev Hinv); [|exact Hstep].
      destruct ev; auto. intros l Hl. apply (Hev results l); [now left|exact Hl].
    + intros results l Hin. apply Hev. now right.
Qed.

(** X12. The component only offers and only selects what a search has
    returned: after any sequence of events, every listed suggestion and
    every location of a dispatched [select] event is among the results of
    one of the searches. *)
Theorem autocomplete_selects_search_results (events : list event) (st : state) :
  run trim initial events = Normal st ->
  forall l, In l (suggestions st) \/ In l (dispatched st) ->
    exists results, In (InputResolved results) events /\ In l results.
Proof.
  intros Hrun.
  apply (run_locations
           (fun l => exists results, In (InputResolved results) events /\ In l results)
           events initial st); [|eauto|exact Hrun].
  intros l [[]|[]].
Qed.

End AutocompleteFacts.

(** X12 on a session: focus, type, let the search answer, arrow down, Enter. *)
Lemma autocomplete_selects_search_results_witness :
  Autocomplete.run (fun s => s) Autocomplete.initial selecting_session =
    Normal after_selecting_session /\
  forall l,
    In l (Autocomplete.suggestions after_selecting_session) \/
    In l (Autocomplete.dispatched after_selecting_session) ->
    exists results,
      In (Autocomplete.InputResolved results) selecting_session /\ In l results.
Proof.
  split; [reflexivity|].
  apply (autocomplete_selects_search_results (fun s => s) selecting_session
           after_selecting_session).
  reflexivity.
Defined.

(** * Splitting and joining strings *)

Section SplitJoin.

Local Open Scope string_scope.

Lemma drop_nil (n : nat) : drop n EmptyString = EmptyString.
Proof. now destruct n. Qed.

Lemma drop_length (n : nat) (s : string) :
  (String.length (drop n s) <= String.length s - n)%nat.
Proof.
  revert s; induction n as [|n IH]; intros [|c s]; simpl; try lia. apply IH.
Qed.

Lemma startsWith_drop (s separator : string) :
  startsWith s separator = true -> s = separator ++ drop (String.length separator) s.
Proof.
  revert s; induction separator as [|p separator IH]; intros s H; simpl in *.
  - reflexivity.
  - destruct s as [|c s]; [discriminate|].
    apply andb_prop in H as [Hc Hs]. apply Ascii.eqb_eq in Hc. subst.
    simpl. f_equal. apply IH, Hs.
Qed.

Lemma startsWith_app (a b separator : string) :
  startsWith a separator = true -> startsWith (a ++ b) separator = true.
Proof.
  revert a; induction separator as [|p separator IH]; intros a H; simpl in *.
  - now destruct (a ++ b).
  - destruct a as [|c a]; [discriminate|]. simpl.
    apply andb_prop in H as [Hc Hs]. now rewrite Hc, IH.
Qed.

Lemma split_aux_skip (separator s : string) (skip : nat) (chunk : string) :
  split_aux separator s skip chunk = split_aux separator (drop skip s) 0 chunk.
Proof.
  revert skip; induction s as [|c s IH]; intros [|k]; simpl; try reflexivity.
  apply IH.
Qed.

Lemma split_aux_not_nil (separator s : string) (skip : nat) (chunk : string) :
  split_aux separator s skip chunk <> [].
Proof.
  revert skip chunk; induction s as [|c s IH]; intros skip chunk; cbn [split_aux];
    [discriminate|].
  destruct skip; [|apply IH].
  destruct (startsWith (String c s) separator); [discriminate|apply IH].
Qed.

Lemma join_cons_not_nil (separator x : string) (l : list string) :
  l <> [] -> join separator (x :: l) = x ++ separator ++ join separator l.
Proof. destruct l; [congruence|reflexivity]. Qed.

(** Joining the pieces with the separator gives the string back. *)
Lemma join_split_aux (separator : string) (n : nat) (s chunk : string) :
  separator <> EmptyString ->
  (String.length s <= n)%nat ->
  join separator (split_aux separator s 0 chunk) = chunk ++ s.
Proof.
  intros Hsep. revert s chunk; induction n as [|n IH]; intros s chunk Hn.
  - destruct s; [|simpl in Hn; lia]. simpl. now rewrite append_nil_r.
  - destruct s as [|c s]; [simpl; now rewrite append_nil_r|].
    cbn [split_aux]. destruct (startsWith (String c s) separator) eqn:Hm.
    + rewrite split_aux_skip, join_cons_not_nil by apply split_aux_not_nil.
      rewrite IH.
      * change (EmptyString ++ drop (String.length separator - 1) s)
          with (drop (String.length separator - 1) s).
        f_equal. etransitivity; [|symmetry; exact (startsWith_drop _ _ Hm)].
        f_equal. destruct separator as [|p separator]; [congruence|].
        simpl. now rewrite Nat.sub_0_r.
      * pose proof (drop_length (String.length separator - 1) s). simpl in Hn. lia.
    + rewrite IH by (simpl in Hn; lia). now rewrite append_assoc.
Qed.

(** The first piece ends at the first occurrence of the separator. *)
Lemma split_aux_first (separator : string) (s chunk : string) :
  separator <> EmptyString ->
  (includes s separator = false -> split_aux separator s 0 chunk = [chunk ++ s]) /\
  (includes s separator = true ->
   exists head tail,
     s = head ++ separator ++ tail /\
     includes head separator = false /\
     split_aux separator s 0 chunk = (chunk ++ head) :: split_aux separator tail 0 EmptyString).
Proof.
  intros Hsep.
  assert (Hnil : includes EmptyString separator = false)
    by (destruct separator; [congruence|reflexivity]).
  revert chunk; induction s as [|c s IH]; intros chunk.
  - split; [intros _; simpl; now rewrite append_nil_r|]. now rewrite Hnil.
  - cbn [split_aux includes]. destruct (startsWith (String c s) separator) eqn:Hm; simpl orb.
    + split; [discriminate|]. intros _.
      exists EmptyString, (drop (String.length separator) (String c s)).
      split; [exact (startsWith_drop _ _ Hm)|]. split; [exact Hnil|].
      rewrite append_nil_r, split_aux_skip. do 2 f_equal.
      destruct separator as [|p separator]; [congruence|]. simpl. now rewrite Nat.sub_0_r.
    + destruct (IH (chunk ++ String c EmptyString)) as [Hno Hyes]. split.
      * intros H. rewrite (Hno H). now rewrite append_assoc.
      * intros H. destruct (Hyes H) as (head & tail & -> & Hhead & ->).
        exists (String c head), tail. split; [reflexivity|]. split.
        -- cbn [includes]. rewrite Hhead, orb_false_r.
           destruct (startsWith (String c head) separator) eqn:Hc; [|reflexivity].
           apply (startsWith_app _ (separator ++ tail)) in Hc.
           simpl in Hc, Hm. congruence.
        -- now rewrite append_assoc.
Qed.

End SplitJoin.

(** * Points of interest from the Mapbox search *)

Section MapboxPOIFacts.

Variable Math : MathObject.

Local Open Scope string_scope.

(** X13. The address of a Mapbox place is what follows the first comma and
    space of the feature's place name: the place name is the first piece,
    the separator and the address; it is empty when the place name has no
    such separator. *)
Theorem address_after_first_separator (place_name : string) :
  (includes place_name ", " = false -> address (Some place_name) = EmptyString) /\
  (includes place_name ", " = true ->
   exists head,
     place_name = head ++ ", " ++ address (Some place_name) /\
     includes head ", " = false).
Proof.
  assert (Hsep : ", " <> EmptyString) by discriminate.
  assert (Hor : forall s, or_else (Some s) EmptyString = s) by (now intros [|c s]).
  unfold address, split. cbn [option_map]. rewrite Hor.
  destruct (split_aux_first ", " place_name EmptyString Hsep) as [Hno Hyes]. split.
  - intros H. now rewrite (Hno H).
  - intros H. destruct (Hyes H) as (head & tail & Hp & Hhead & ->).
    exists head. split; [|exact Hhead]. cbn [tl].
    now rewrite (join_split_aux ", " (String.length tail) tail EmptyString Hsep (le_n _)).
Qed.

Example address_of_a_landmark :
  address (Some "Golden Gate Bridge, San Francisco, CA 94129") = "San Francisco, CA 94129".
Proof. reflexivity. Qed.

End MapboxPOIFacts.

Section FindMapboxPOIs.

Variable Math : MathObject.

Local Open Scope string_scope.
Local Open Scope float_scope.

Lemma or_else_not_empty (value : option string) (fallback : string) :
  fallback <> EmptyString -> or_else value fallback <> EmptyString.
Proof. intros H. destruct value as [[|c s]|]; simpl; auto. discriminate. Qed.

Lemma toMapboxPlace_normal (coordinate : Coord) (category : string)
    (index : nat) (feature : MapboxPOIFeature.t) :
  exists poi,
    toMapboxPlace Math coordinate category index feature = Normal poi /\
    Place.coordinate poi = MapboxPOIFeature.center feature /\
    Place.name poi <> EmptyString /\
    Place.id poi <> EmptyString /\
    Place.importance poi = (if (index =? 0)%nat then 1 else 0.5) /\
    Place.distance poi =
      haversine Math (fst coordinate) (snd coordinate)
                (fst (MapboxPOIFeature.center feature))
                (snd (MapboxPOIFeature.center feature)).
Proof.
  eexists. split; [reflexivity|]. cbn [Place.coordinate Place.name
    Place.id Place.importance Place.distance fst snd].
  repeat split; apply or_else_not_empty; discriminate.
Qed.

Lemma map_indexed_toMapboxPlace (coordinate : Coord) (category : string)
    (features : list MapboxPOIFeature.t) (index : nat) :
  exists pois,
    map_indexed (toMapboxPlace Math coordinate category) index features = Normal pois /\
    length pois = length features /\
    forall i poi, nth_error pois i = Some poi ->
      exists feature,
        nth_error features i = Some feature /\
        toMapboxPlace Math coordinate category (index + i) feature = Normal poi.
Proof.
  revert index; induction features as [|f features IH]; intros index.
  - exists []. split; [reflexivity|]. split; [reflexivity|]. intros [|i] poi; discriminate.
  - destruct (toMapboxPlace_normal coordinate category index f) as (p & Hp & _).
    destruct (IH (S index)) as (ps & Hps & Hlen & Hnth).
    exists (p :: ps). cbn [map_indexed]. rewrite Hp, Hps. split; [reflexivity|].
    split; [simpl; now rewrite Hlen|].
    intros [|i] poi; simpl.
    + intros H; injection H as <-. exists f. split; [reflexivity|].
      now rewrite Nat.add_0_r.
    + intros H. destruct (Hnth i poi H) as (feature & Hf & Hpoi).
      exists feature. split; [exact Hf|].
      now replace (index + S i)%nat with (S index + i)%nat by lia.
Qed.

(** X14. [findMapboxPOIs] turns the features of a response into one place
    each, in order and without ever falling into its [catch]: the i-th
    place sits at the i-th feature's centre, its distance is the Haversine
    distance from the search coordinate, its name and id are not empty, and
    its importance is 1 for the first place and 0.5 for the others. *)
Theorem findMapboxPOIs_one_place_per_feature
    (features : list MapboxPOIFeature.t) (coordinate : Coord) (category : string) :
  length (findMapboxPOIs Math (Some features) coordinate category) = length features /\
  forall i poi,
    nth_error (findMapboxPOIs Math (Some features) coordinate category) i = Some poi ->
    exists feature,
      nth_error features i = Some feature /\
      Place.coordinate poi = MapboxPOIFeature.center feature /\
      Place.distance poi =
        haversine Math (fst coordinate) (snd coordinate)
                  (fst (MapboxPOIFeature.center feature))
                  (snd (MapboxPOIFeature.center feature)) /\
      Place.name poi <> EmptyString /\
      Place.id poi <> EmptyString /\
      Place.importance poi = (if (i =? 0)%nat then 1 else 0.5).
Proof.
  destruct features as [|f features].
  - split; [reflexivity|]. intros [|i] poi; discriminate.
  - change (findMapboxPOIs Math (Some (f :: features)) coordinate category)
      with (match map_indexed (toMapboxPlace Math coordinate category) 0 (f :: features) with
            | Normal pois => pois
            | Throw _ => []
            end).
    destruct (map_indexed_toMapboxPlace coordinate category (f :: features) 0)
      as (pois & -> & Hlen & Hnth).
    split; [exact Hlen|]. intros i poi Hpoi.
    destruct (Hnth i poi Hpoi) as (feature & Hf & Hp).
    exists feature. split; [exact Hf|].
    destruct (toMapboxPlace_normal coordinate category (0 + i) feature)
      as (p & Hp' & Hc & Hn & Hid & Himp & Hd).
    rewrite Hp in Hp'. injection Hp' as <-. auto.
Qed.

End FindMapboxPOIs.

(** * Places along the segments *)

Lemma Map_set_fresh {V} (entries : list (nat * V)) (key : nat) (value : V) :
  ~ In key (map fst entries) -> Map_set entries key value = entries ++ [(key, value)].
Proof.
  induction entries as [|[k v] entries IH]; simpl; intros H; [reflexivity|].
  destruct (k =? key)%nat eqn:Hk; [apply Nat.eqb_eq in Hk; tauto|].
  rewrite IH by tauto. reflexivity.
Qed.

Lemma for_each_throws {S} (body : nat -> S -> Completion S) (indices : list nat) (i : nat) :
  In i indices ->
  (forall st, body i st = Throw TypeError) ->
  forall st, for_each body indices st = Throw TypeError.
Proof.
  intros Hi Hthrow. induction indices as [|j indices IH]; intros st; [contradiction|].
  simpl. destruct (body j st) as [st'|[]] eqn:Hj; [|reflexivity]. simpl.
  destruct Hi as [->|Hi]; [rewrite Hthrow in Hj; discriminate|]. now apply IH.
Qed.

Section FindSegmentPOIs.

Variable Math : MathObject.
Variable search : nat -> Coord -> option (list MapboxPOIFeature.t).

Local Open Scope float_scope.

Lemma findMapboxPOIs_first (features : option (list MapboxPOIFeature.t))
    (coordinate : Coord) (category : string) :
  (0 <? length (findMapboxPOIs Math features coordinate category))%nat = true ->
  exists poi,
    slice (findMapboxPOIs Math features coordinate category) 0 1 = [poi] /\
    Place.importance poi = 1.
Proof.
  destruct features as [[|f features]|]; try discriminate.
  change (findMapboxPOIs Math (Some (f :: features)) coordinate category)
    with (match map_indexed (toMapboxPlace Math coordinate category) 0 (f :: features) with
          | Normal pois => pois
          | Throw _ => []
          end).
  destruct (map_indexed_toMapboxPlace Math coordinate category (f :: features) 0)
    as (pois & -> & Hlen & Hnth).
  destruct pois as [|p pois]; [discriminate|]. intros _.
  exists p. split; [reflexivity|].
  destruct (Hnth 0%nat p eq_refl) as (feature & _ & Hp).
  destruct (toMapboxPlace_normal Math coordinate category (0 + 0) feature)
    as (p' & Hp' & _ & _ & _ & Himp & _).
  rewrite Hp in Hp'. injection Hp' as <-. exact Himp.
Qed.

Lemma segment_body_normal (segments : list RouteSegment.t) (i : nat)
    (segmentPOIs : list (nat * list Place.t)) :
  Forall has_start segments ->
  (i < length segments)%nat ->
  map fst segmentPOIs = seq 0 (Nat.min i (length segments - 1)) ->
  Forall one_highlight segmentPOIs ->
  exists segmentPOIs',
    segment_body Math search segments i segmentPOIs = Normal segmentPOIs' /\
    map fst segmentPOIs' = seq 0 (Nat.min (S i) (length segments - 1)) /\
    Forall one_highlight segmentPOIs'.
Proof.
  intros Hstart Hi Hkeys Hall. unfold segment_body.
  destruct (i =? length segments - 1)%nat eqn:Hlast.
  { apply Nat.eqb_eq in Hlast. exists segmentPOIs. split; [reflexivity|].
    split; [|exact Hall]. rewrite Hkeys. f_equal. lia. }
  apply Nat.eqb_neq in Hlast.
  destruct (length segments <=? i + 1)%nat eqn:Hnext; [apply Nat.leb_le in Hnext; lia|].
  destruct (nth_error segments i) as [segment|] eqn:Hs;
    [|apply nth_error_None in Hs; lia].
  destruct (nth_error segments (i + 1)) as [nextSegment|] eqn:Hn;
    [|apply nth_error_None in Hn; lia].
  rewrite Forall_forall in Hstart.
  pose proof (Hstart _ (nth_error_In _ _ Hs)) as H1.
  pose proof (Hstart _ (nth_error_In _ _ Hn)) as H2.
  unfold has_start in H1, H2.
  destruct (RouteSegment.startCoordinate segment) as [s|]; [|congruence].
  destruct (RouteSegment.startCoordinate nextSegment) as [e|]; [|congruence].
  cbv zeta. cbn [read bind simulated].
  assert (Hfresh : forall value, Map_set segmentPOIs i value = segmentPOIs ++ [(i, value)]).
  { intros value. apply Map_set_fresh. rewrite Hkeys, in_seq. lia. }
  assert (Hkeys' : forall value : list Place.t,
            map fst (segmentPOIs ++ [(i, value)]) =
            seq 0 (Nat.min (S i) (length segments - 1))).
  { intros value. rewrite map_app, Hkeys.
    replace (Nat.min i (length segments - 1)) with i by lia.
    replace (Nat.min (S i) (length segments - 1)) with (S i) by lia.
    rewrite seq_S. reflexivity. }
  destruct (0 <? length (findMapboxPOIs _ _ _ _))%nat eqn:Hfound.
  - destruct (findMapboxPOIs_first _ _ _ Hfound) as (poi & Hslice & Himp).
    eexists. split; [reflexivity|]. rewrite Hfresh. split; [apply Hkeys'|].
    apply Forall_app. split; [exact Hall|]. constructor; [|constructor].
    exists poi. split; [exact Hslice|exact Himp].
  - eexists. split; [reflexivity|]. rewrite Hfresh. split; [apply Hkeys'|].
    apply Forall_app. split; [exact Hall|]. constructor; [|constructor].
    eexists. split; reflexivity.
Qed.

Lemma findSegmentPOIs_normal (segments : list RouteSegment.t) :
  (length segments <= 1)%nat \/ Forall has_start segments ->
  exists segmentPOIs,
    findSegmentPOIs Math search (Some segments) = Normal segmentPOIs /\
    map fst segmentPOIs = seq 0 (length segments - 1) /\
    Forall one_highlight segmentPOIs.
Proof.
  intros [Hshort|Hstart].
  - destruct segments as [|s [|s' segments]]; [| |simpl in Hshort; lia];
      exists []; repeat split; constructor.
  - destruct segments as [|s0 segments]; [exists []; repeat split; constructor|].
    unfold findSegmentPOIs.
    destruct (for_each_invariant (segment_body Math search (s0 :: segments))
                (fun i m => map fst m = seq 0 (Nat.min i (length (s0 :: segments) - 1)) /\
                            Forall one_highlight m)
                (length (s0 :: segments)) 0 []) as (m & Hrun & Hkeys & Hall).
    + intros i m Hi [Hkeys Hall].
      destruct (segment_body_normal (s0 :: segments) i m Hstart ltac:(lia) Hkeys Hall)
        as (m' & Hm' & H'). exists m'. split; [exact Hm'|exact H'].
    + split; [reflexivity|constructor].
    + exists m. split; [exact Hrun|]. split; [|exact Hall].
      rewrite Hkeys. f_equal. lia.
Qed.


(** X16. The [catch] block of [findSegmentPOIs] cannot recover from a
    missing coordinate: with two segments or more, one of which has no start
    coordinate, the call throws. *)
Theorem findSegmentPOIs_missing_start_throws (segments : list RouteSegment.t) :
  (2 <= length segments)%nat ->
  Exists (fun s => RouteSegment.startCoordinate s = None) segments ->
  findSegmentPOIs Math search (Some segments) = Throw TypeError.
Proof.
  intros Hlen Hex. apply Exists_exists in Hex as (s & Hin & Hnone).
  apply In_nth_error in Hin as (j & Hj).
  assert (Hjlt : (j < length segments)%nat) by (apply nth_error_Some; congruence).
  assert (Hbody : exists i, (i + 1 < length segments)%nat /\
            forall m, segment_body Math search segments i m = Throw TypeError).
  { destruct (Nat.eq_dec j (length segments - 1)) as [Hlast|Hlast].
    - exists (j - 1)%nat. split; [lia|]. intros m. unfold segment_body.
      destruct (j - 1 =? length segments - 1)%nat eqn:H1; [apply Nat.eqb_eq in H1; lia|].
      destruct (length segments <=? j - 1 + 1)%nat eqn:H2; [apply Nat.leb_le in H2; lia|].
      destruct (nth_error segments (j - 1)) as [segment|] eqn:Hs;
        [|apply nth_error_None in Hs; lia].
      replace (j - 1 + 1)%nat with j by lia. rewrite Hj, Hnone. cbv zeta.
      destruct (RouteSegment.startCoordinate segment); reflexivity.
    - exists j. split; [lia|]. intros m. unfold segment_body.
      destruct (j =? length segments - 1)%nat eqn:H1; [apply Nat.eqb_eq in H1; lia|].
      destruct (length segments <=? j + 1)%nat eqn:H2; [apply Nat.leb_le in H2; lia|].
      rewrite Hj, Hnone.
      destruct (nth_error segments (j + 1)) as [nextSegment|] eqn:Hn; reflexivity. }
  destruct Hbody as (i & Hi & Hthrow).
  destruct segments as [|s0 segments]; [simpl in Hlen; lia|].
  unfold findSegmentPOIs. apply (for_each_throws _ _ i); [|exact Hthrow].
  apply in_seq. lia.
Qed.

Lemma segmentRoute_has_start (directionsData : option DirectionsResult.t) (target : number) :
  exists segs,
    segmentRoute Math directionsData target = Normal segs /\
    ((length segs <= 1)%nat \/ Forall has_start segs).
Proof.
  destruct directionsData as [data|]; [|exists []; split; [reflexivity|left; simpl; lia]].
  destruct (route_coordinates data) as [coords|] eqn:Hc.
  - rewrite (segmentRoute_unfold Math data coords target Hc).
    destruct (_ <=? target); [eexists; split; [reflexivity|left; simpl; lia]|].
    destruct (le_lt_dec 2 (length coords)) as [Hlen|Hlen].
    + destruct (segmentation_loop Math coords
                  (DirectionsResult.distance data / DirectionsResult.duration data)
                  (target * 3600) Hlen) as (st & -> & _ & _ & Hidx & _ & Hseg).
      exists (segments st). split; [reflexivity|]. right.
      rewrite Forall_forall in *. intros s Hs.
      destruct (Hidx s Hs) as [H1 H2]. destruct (Hseg s Hs) as (_ & Hstart & _).
      unfold has_start. rewrite Hstart. apply nth_error_Some. lia.
    + replace (length coords - 1)%nat with 0%nat by lia.
      exists []. split; [reflexivity|left; simpl; lia].
  - rewrite segmentRoute_malformed by exact Hc.
    exists []. split; [reflexivity|left; simpl; lia].
Qed.

(** X17. [findSegmentPOIs] accepts whatever [segmentRoute] returns: for
    every route and target the composition does not throw, and it yields
    one place for each segment but the last. *)
Theorem findSegmentPOIs_of_segmentRoute
    (directionsData : option DirectionsResult.t) (target : number) :
  exists segs segmentPOIs,
    segmentRoute Math directionsData target = Normal segs /\
    findSegmentPOIs Math search (Some segs) = Normal segmentPOIs /\
    map fst segmentPOIs = seq 0 (length segs - 1) /\
    Forall one_highlight segmentPOIs.
Proof.
  destruct (segmentRoute_has_start directionsData target) as (segs & Hsegs & Hstart).
  destruct (findSegmentPOIs_normal segs Hstart) as (m & Hm & Hkeys & Hall).
  exists segs, m. auto.
Qed.

End FindSegmentPOIs.


(** X16 on two segments, the first without start coordinate. *)
Lemma findSegmentPOIs_missing_start_throws_witness :
  findSegmentPOIs RefMath.Math (fun _ _ => None)
    (Some [leg None; leg (Some (-118.24, 34.05)%float)]) = Throw TypeError.
Proof.
  apply (findSegmentPOIs_missing_start_throws RefMath.Math (fun _ _ => None)
           [leg None; leg (Some (-118.24, 34.05)%float)]).
  - simpl. lia.
  - apply Exists_cons_hd. reflexivity.
Defined.

(** * Places at the destination, and the ids of the route places *)

Section DestinationPOIFacts.

Variable Date_now : nat -> string.

(** X19. The page's test for fallback places is exact: it succeeds on the
    result of [findDestinationPOIs] if and only if the recommendation call
    rejected and the fallback place was returned. *)
Theorem usesFallback_iff_rejected
    (recommendations : option (list GeminiPOIRecommendation.t))
    (coordinate : Coord) (placeName : string) :
  usesFallback (findDestinationPOIs Date_now recommendations coordinate placeName) = true <->
  recommendations = None.
Proof.
  destruct recommendations as [recs|]; simpl.
  - split; [|discriminate]. unfold findDestinationPOIs, usesFallback. simpl.
    destruct recs as [|r [|r' recs]]; simpl; discriminate.
  - split; reflexivity.
Qed.

End DestinationPOIFacts.

Section RoutePlaceIds.

Variable now : Z.

Lemma mapi_from_ids (places : list GeminiRecommendedPlace.t) (index : nat) :
  map PlaceOfInterest.id (mapi_from (toPOI now) index places) =
  map (fun i => (i, now)) (seq index (length places)).
Proof.
  revert index; induction places as [|p places IH]; intros index; simpl;
    [reflexivity|now rewrite IH].
Qed.

Lemma NoDup_map_filter {A B} (g : A -> B) (f : A -> bool) (l : list A) :
  NoDup (map g l) -> NoDup (map g (filter f l)).
Proof.
  induction l as [|x l IH]; simpl; intros H; [constructor|].
  inversion H as [|? ? Hx Hl]; subst.
  destruct (f x); [|now apply IH]. simpl. constructor; [|now apply IH].
  intros Hin. apply Hx. apply in_map_iff in Hin as (y & Hy & Hyin).
  apply in_map_iff. exists y. split; [exact Hy|]. now apply filter_In in Hyin.
Qed.

(** X20. The ids of the route places are pairwise distinct, also after the
    places with invalid coordinates are filtered out: each id carries the
    index the place had in the recommendation. *)
Theorem routePOIs_ids_distinct (recommendedPlaces : list GeminiRecommendedPlace.t) :
  NoDup (map PlaceOfInterest.id (routePOIs now recommendedPlaces)).
Proof.
  unfold routePOIs. apply NoDup_map_filter. rewrite mapi_from_ids.
  generalize (seq_NoDup (length recommendedPlaces) 0).
  induction 1 as [|i l Hi _ IH]; simpl; constructor; [|exact IH].
  intros Hin. apply in_map_iff in Hin as (j & Hj & Hjin).
  injection Hj as ->. contradiction.
Qed.

End RoutePlaceIds.
